(** * torchODE: the CUDA integration engine ([solver.cu]) and its C++ entry point

    A shallow embedding of the stepping methods, the four kernels, the
    launch and the host-side dispatch, followed by the properties of the
    design document that were checked against them.

    Numbers are IEEE-754 values: the C++ type [float] is binary32 and the
    type of the literals [2.0] and [6.0] is binary64, both taken from the
    parameterised specification [SpecFloat] of the standard library, with
    round-to-nearest-even and every operation rounded on its own (no fused
    multiply-add). *)

From Stdlib Require Import ZArith Lia.
From Stdlib Require Import Floats.SpecFloat.
From stdpp Require Import base option list list_numbers strings gmap.

Local Open Scope Z_scope.

(** ** Floating-point formats *)

Module Ieee.

Record format := Format { prec : Z; emax : Z }.

Definition binary32 : format := Format 24 128.
Definition binary64 : format := Format 53 1024.

Definition add (f : format) : spec_float → spec_float → spec_float :=
  SFadd (prec f) (emax f).
Definition mul (f : format) : spec_float → spec_float → spec_float :=
  SFmul (prec f) (emax f).
Definition div (f : format) : spec_float → spec_float → spec_float :=
  SFdiv (prec f) (emax f).

(** Conversion of a value to format [f]: exact when the value is
    representable (widening), rounded to nearest even otherwise
    (narrowing), overflowing to an infinity. *)
Definition convert (f : format) (x : spec_float) : spec_float :=
  match x with
  | S754_finite s m e => binary_round (prec f) (emax f) s m e
  | _ => x
  end.

(** The value [m * 2^e] in format [f]. *)
Definition dyadic (f : format) (m e : Z) : spec_float :=
  binary_normalize (prec f) (emax f) m e false.

Definition is_zero (x : spec_float) : bool :=
  match x with S754_zero _ => true | _ => false end.

(** Neither an infinity nor a NaN. *)
Definition is_finite (x : spec_float) : bool :=
  match x with S754_zero _ | S754_finite _ _ _ => true | _ => false end.

End Ieee.

(** The two C++ arithmetic types of the source.  They are kept apart so
    that every promotion and the narrowing at [return] is written out. *)
Record float := Float { float_val : spec_float }.
Record double := Double { double_val : spec_float }.

Definition fadd (a b : float) : float :=
  Float (Ieee.add Ieee.binary32 (float_val a) (float_val b)).
Definition fmul (a b : float) : float :=
  Float (Ieee.mul Ieee.binary32 (float_val a) (float_val b)).

Definition dadd (a b : double) : double :=
  Double (Ieee.add Ieee.binary64 (double_val a) (double_val b)).
Definition dmul (a b : double) : double :=
  Double (Ieee.mul Ieee.binary64 (double_val a) (double_val b)).
Definition ddiv (a b : double) : double :=
  Double (Ieee.div Ieee.binary64 (double_val a) (double_val b)).

(** Usual arithmetic conversion [float → double] and the conversion
    [double → float] of a [return] in a function of result type [float]. *)
Definition to_double (a : float) : double :=
  Double (Ieee.convert Ieee.binary64 (float_val a)).
Definition to_float (a : double) : float :=
  Float (Ieee.convert Ieee.binary32 (double_val a)).

(** Literals. *)
Definition float_lit (m e : Z) : float := Float (Ieee.dyadic Ieee.binary32 m e).
Definition double_lit (m e : Z) : double := Double (Ieee.dyadic Ieee.binary64 m e).
Definition d2_0 : double := double_lit 2 0.
Definition d6_0 : double := double_lit 6 0.

Declare Scope float_scope.
Delimit Scope float_scope with flt.
Infix "+f" := fadd (at level 50, left associativity) : float_scope.
Infix "*f" := fmul (at level 40, left associativity) : float_scope.
Infix "+d" := dadd (at level 50, left associativity) : float_scope.
Infix "*d" := dmul (at level 40, left associativity) : float_scope.
Infix "/d" := ddiv (at level 40, left associativity) : float_scope.
Local Open Scope float_scope.

#[global] Instance spec_float_eq_dec : EqDecision spec_float.
Proof. solve_decision. Defined.
#[global] Instance float_eq_dec : EqDecision float.
Proof. solve_decision. Defined.
#[global] Instance double_eq_dec : EqDecision double.
Proof. solve_decision. Defined.

(** ** Integration methods ([solver.cu], lines 13-32) *)

Definition euler_method (F_in x0_in g_in dt : float) : float :=
  (F_in *f g_in) *f dt.

(** [f1] is a [float]; from [c2] on, the literal [2.0] makes every
    intermediate a [double]; the result is narrowed to [float]. *)
Definition rk4_method (F_in x0_in g_in dt : float) : float :=
  let f1 := (F_in *f g_in) *f dt in
  let c2 := to_double (dt *f f1) /d d2_0 in
  let f2 := (to_double F_in *d (to_double g_in +d c2)) *d (to_double dt /d d2_0) in
  let c3 := to_double dt *d f2 /d d2_0 in
  let f3 := (to_double F_in *d (to_double g_in +d c3)) *d (to_double dt /d d2_0) in
  let c4 := to_double dt *d f3 in
  let f4 := (to_double F_in *d (to_double g_in +d c4)) *d to_double dt in
  to_float ((to_double f1 +d d2_0 *d f2 +d d2_0 *d f3 +d f4) /d d6_0).


(** ** Device memory

    A one-dimensional accessor is the list of its elements; a
    two-dimensional accessor of a contiguous tensor addresses the element
    [i][j] at offset [i * size1 + j] of its storage.  Accessors do not
    check bounds: an access outside the storage is undefined behaviour,
    which the model reports as [None]. *)

Record Tensor2 := { size0 : Z; size1 : Z; data : list float }.

Definition load (a : list float) (i : Z) : option float :=
  if decide (0 ≤ i) then a !! Z.to_nat i else None.

Definition store (a : list float) (i : Z) (v : float) : option (list float) :=
  if decide (0 ≤ i < Z.of_nat (length a)) then Some (<[Z.to_nat i := v]> a)
  else None.

Definition load2 (F_a : Tensor2) (i j : Z) : option float :=
  load (data F_a) (i * size1 F_a + j).

(** Conversion to the 32-bit [int] of the kernel parameters and of [tid]. *)
Definition int (z : Z) : Z := (z + 2 ^ 31) `mod` 2 ^ 32 - 2 ^ 31.

Definition INT_MAX : Z := 2 ^ 31 - 1.

(** ** Method pointers

    [method_t] is a pointer to a device function.  The values it takes in
    this program are the addresses of the two methods and the null pointer;
    a call through the null pointer is undefined behaviour. *)

Inductive method_t := nullptr | p_euler_method | p_rk4_method.

#[global] Instance method_t_eq_dec : EqDecision method_t.
Proof. solve_decision. Defined.

Definition deref (method : method_t)
    : option (float → float → float → float → float) :=
  match method with
  | nullptr => None
  | p_euler_method => Some euler_method
  | p_rk4_method => Some rk4_method
  end.

(** [method(F_in, x0_in, g_in, dt)] in a kernel. *)
Definition call (method : method_t) (F_in x0_in g_in dt : float) : option float :=
  f ← deref method; Some (f F_in x0_in g_in dt).

(** ** The step loops of the kernels

    [for (int i = 0; i < steps; i++)] runs [Z.to_nat steps] times; the
    loops below take that number of iterations. *)

(** Lines 43-45 and 59-61. *)
Fixpoint diagonal_loop (method : method_t) (F_in g_in dt : float)
    (n : nat) (x0_in : float) : option float :=
  match n with
  | O => Some x0_in
  | S n' =>
      inc ← call method F_in x0_in g_in dt;
      diagonal_loop method F_in g_in dt n' (x0_in +f inc)
  end.

(** The four coefficients of a pair: [UL_v], [UR_v], [LL_v], [LR_v]. *)
Record coeffs := Coeffs { UL_v : float; UR_v : float; LL_v : float; LR_v : float }.

(** One iteration of lines 82-87 and 109-114. *)
Definition skew_step (method : method_t) (c : coeffs) (g_in_1 g_in_2 dt : float)
    (x : float * float) : option (float * float) :=
  let '(x0_in_1, x0_in_2) := x in
  a ← call method (UL_v c) x0_in_1 g_in_1 dt;
  b ← call method (UR_v c) x0_in_2 g_in_2 dt;
  let x0_in_1 := x0_in_1 +f a +f b in
  a' ← call method (LL_v c) x0_in_1 g_in_1 dt;
  b' ← call method (LR_v c) x0_in_2 g_in_2 dt;
  let x0_in_2 := x0_in_1 +f a' +f b' in
  Some (x0_in_1, x0_in_2).

Fixpoint skew_loop (method : method_t) (c : coeffs) (g_in_1 g_in_2 dt : float)
    (n : nat) (x : float * float) : option (float * float) :=
  match n with
  | O => Some x
  | S n' =>
      x' ← skew_step method c g_in_1 g_in_2 dt x;
      skew_loop method c g_in_1 g_in_2 dt n' x'
  end.

(** ** The kernels, as the work of the thread [tid] on the state array *)

Definition general_solver (method : method_t) (F_a : Tensor2) (g_a : list float)
    (dt : float) (steps x0_size : Z) (tid : Z) (x0_a : list float)
    : option (list float) :=
  if decide (tid < x0_size) then
    x0_in ← load x0_a tid;
    g_in ← load g_a tid;
    F_in ← load2 F_a tid tid;
    x0_in ← diagonal_loop method F_in g_in dt (Z.to_nat steps) x0_in;
    store x0_a tid x0_in
  else Some x0_a.

Definition compact_diagonal_solver (method : method_t) (F_a : Tensor2)
    (g_a : list float) (dt : float) (steps x0_size : Z) (tid : Z)
    (x0_a : list float) : option (list float) :=
  if decide (tid < x0_size) then
    x0_in ← load x0_a tid;
    g_in ← load g_a tid;
    F_in ← load2 F_a 0 0;
    x0_in ← diagonal_loop method F_in g_in dt (Z.to_nat steps) x0_in;
    store x0_a tid x0_in
  else Some x0_a.

Definition general_skew_symmetric_solver (method : method_t) (F_a : Tensor2)
    (g_a : list float) (dt : float) (steps x0_size : Z) (tid : Z)
    (x0_a : list float) : option (list float) :=
  if decide (tid < x0_size `quot` 2) then
    g_in_1 ← load g_a tid;
    g_in_2 ← load g_a (tid + x0_size `quot` 2);
    x0_in_1 ← load x0_a tid;
    x0_in_2 ← load x0_a (tid + x0_size `quot` 2);
    UL ← load2 F_a tid tid;
    UR ← load2 F_a tid (tid + x0_size `quot` 2);
    LL ← load2 F_a (tid + x0_size `quot` 2) tid;
    LR ← load2 F_a (tid + x0_size `quot` 2) (tid + x0_size `quot` 2);
    x ← skew_loop method (Coeffs UL UR LL LR) g_in_1 g_in_2 dt
          (Z.to_nat steps) (x0_in_1, x0_in_2);
    x0_a ← store x0_a tid x.1;
    store x0_a (tid + x0_size `quot` 2) x.2
  else Some x0_a.

Definition compact_skew_symmetric_solver (method : method_t) (F_a : Tensor2)
    (g_a : list float) (dt : float) (steps x0_size : Z) (tid : Z)
    (x0_a : list float) : option (list float) :=
  if decide (tid < x0_size `quot` 2) then
    g_in_1 ← load g_a tid;
    g_in_2 ← load g_a (tid + x0_size `quot` 2);
    x0_in_1 ← load x0_a tid;
    x0_in_2 ← load x0_a (tid + x0_size `quot` 2);
    UL ← load2 F_a 0 0;
    UR ← load2 F_a 0 1;
    LL ← load2 F_a 1 0;
    LR ← load2 F_a 1 1;
    x ← skew_loop method (Coeffs UL UR LL LR) g_in_1 g_in_2 dt
          (Z.to_nat steps) (x0_in_1, x0_in_2);
    x0_a ← store x0_a tid x.1;
    store x0_a (tid + x0_size `quot` 2) x.2
  else Some x0_a.

(** ** Launch

    [kernel<<<blocks, threadsPerBlock>>>] runs the kernel once for every
    [blockIdx.x < blocks] and [threadIdx.x < threadsPerBlock], with
    [tid = blockIdx.x * blockDim.x + threadIdx.x] converted to [int].  No
    two threads of these kernels touch the same element of the state
    array, so the threads are run one after the other, in the order of the
    grid; as long as no thread index is negative, every other order gives
    the same result ([launch_schedule_independent] below).  The launch is
    undefined as soon as one thread is. *)

Definition grid (blocks threadsPerBlock : Z) : list Z :=
  blockIdx ← seqZ 0 blocks;
  threadIdx ← seqZ 0 threadsPerBlock;
  [int (blockIdx * threadsPerBlock + threadIdx)].

Definition run_threads (kernel : Z → list float → option (list float))
    (tids : list Z) (x0_a : list float) : option (list float) :=
  foldl (λ mem tid, mem ≫= kernel tid) (Some x0_a) tids.

Definition launch (blocks threadsPerBlock : Z)
    (kernel : Z → list float → option (list float)) (x0_a : list float)
    : option (list float) :=
  run_threads kernel (grid blocks threadsPerBlock) x0_a.

(** ** Host side: [solve_cuda] ([solver.cu], lines 125-163) *)

(** The kernels of the file, by name. *)
Inductive solver_t :=
  | k_general_solver
  | k_compact_diagonal_solver
  | k_general_skew_symmetric_solver
  | k_compact_skew_symmetric_solver.

#[global] Instance solver_t_eq_dec : EqDecision solver_t.
Proof. solve_decision. Defined.

Definition solver_body (k : solver_t) :
    method_t → Tensor2 → list float → float → Z → Z → Z → list float →
    option (list float) :=
  match k with
  | k_general_solver => general_solver
  | k_compact_diagonal_solver => compact_diagonal_solver
  | k_general_skew_symmetric_solver => general_skew_symmetric_solver
  | k_compact_skew_symmetric_solver => compact_skew_symmetric_solver
  end.

(** Lines 135-136: the table of methods. *)
Definition h_methods : gmap string method_t :=
  <["RK4" := p_rk4_method]> (<["Euler" := p_euler_method]> ∅).

(** [std::map::operator[]]: the mapped value of the key; a key that is
    absent is inserted with a value-initialised mapped value, here the
    null pointer, which is returned. *)
Definition subscript (m : gmap string method_t) (name : string) : method_t :=
  default nullptr (m !! name).

Definition threadsPerBlock : Z := 512.

(** What [solve_cuda] puts between [<<<] and [>>>] and passes to the
    kernel. *)
Record launch_t := Launch {
  l_solver : solver_t;
  l_blocks : Z;
  l_threads : Z;
  l_method : method_t;
  l_x0_size : Z
}.

(** Lines 150-160: the switch on [F_size]. *)
Definition select_solver (F_size : Z) : solver_t :=
  match F_size with
  | 1 => k_compact_diagonal_solver
  | 2 => k_compact_skew_symmetric_solver
  | _ => k_general_skew_symmetric_solver
  end.

(** Lines 127-160 up to the launch.  There is no other path through the
    function: every call reaches a launch. *)
Definition solve_cuda_launch (F : Tensor2) (x0 : list float) (name : string)
    : launch_t :=
  let d_chosen_method := subscript h_methods name in
  let F_size := size0 F in
  let x0_size := Z.of_nat (length x0) in
  let blocks := int ((x0_size + threadsPerBlock - 1) `quot` threadsPerBlock) in
  Launch (select_solver F_size) blocks threadsPerBlock d_chosen_method
         (int x0_size).

Definition run_launch (l : launch_t) (F : Tensor2) (g : list float) (dt : float)
    (steps : Z) (x0 : list float) : option (list float) :=
  launch (l_blocks l) (l_threads l)
    (solver_body (l_solver l) (l_method l) F g dt steps (l_x0_size l)) x0.

(** The state tensor that [solve_cuda] returns, once the kernel has run;
    [None] when the kernel has undefined behaviour. *)
Definition solve_cuda (F : Tensor2) (x0 g : list float) (dt : float) (steps : Z)
    (name : string) : option (list float) :=
  run_launch (solve_cuda_launch F x0 name) F g dt steps x0.

(** A kernel launch is asynchronous, and [solve_cuda] returns the state
    tensor right after its launch (lines 150-162): it has no
    [cudaDeviceSynchronize], which [euler_solver_cuda] of the first version
    has.  At the moment the call returns, some threads of the grid have
    finished and the others have not started; the threads that have
    finished are any threads of the grid, each counted once. *)
Definition may_have_finished (l : launch_t) (finished : list Z) : Prop :=
  NoDup finished ∧ ∀ tid, tid ∈ finished → tid ∈ grid (l_blocks l) (l_threads l).

(** The state tensor at the moment [solve_cuda] returns, when the threads
    [finished] are the ones that have finished by then. *)
Definition solve_cuda_at_return (F : Tensor2) (x0 g : list float) (dt : float)
    (steps : Z) (name : string) (finished : list Z) : option (list float) :=
  let l := solve_cuda_launch F x0 name in
  run_threads (solver_body (l_solver l) (l_method l) F g dt steps (l_x0_size l))
    finished x0.

(** ** The C++ entry point [solve_cpp] (lines 19-25 of the binding file) *)

(** What [CHECK_INPUT] looks at, next to the contents of a tensor. *)
Record Tensor (A : Type) := MkTensor {
  is_cuda : bool;
  is_contiguous : bool;
  contents : A
}.
Arguments MkTensor {A} _ _ _.
Arguments is_cuda {A} _.
Arguments is_contiguous {A} _.
Arguments contents {A} _.

Inductive result (A : Type) :=
  | AssertFailed (msg : string)
  | Returned (r : A).
Arguments AssertFailed {A} _.
Arguments Returned {A} _.

Definition CHECK_INPUT {A} (x : Tensor A) (name : string) : option string :=
  if negb (is_cuda x) then Some (name +:+ " must be a CUDA tensor")
  else if negb (is_contiguous x) then Some (name +:+ " must be contiguous")
  else None.

Definition solve_cpp (F : Tensor Tensor2) (x0 g : Tensor (list float))
    (dt : float) (steps : Z) (name : string)
    : result (option (list float)) :=
  match CHECK_INPUT F "F" with
  | Some msg => AssertFailed msg
  | None =>
    match CHECK_INPUT x0 "x0" with
    | Some msg => AssertFailed msg
    | None =>
      match CHECK_INPUT g "g" with
      | Some msg => AssertFailed msg
      | None =>
          Returned (solve_cuda (contents F) (contents x0) (contents g) dt steps name)
      end
    end
  end.

(** ** The first kernel of the repository: [euler_kernel] and
    [euler_solver_cuda]

    One thread for each of the [W * W] elements of [x0], each with the
    coefficient [F[tid / W][tid % W]].  The thread loads its element and
    its coefficient before it tests [tid < W * W], accumulates in [double],
    with the [float] parameter [dt] promoted, and narrows the result to
    [float] when it stores it. *)

Fixpoint euler_kernel_loop (F_in : double) (dt : float) (n : nat)
    (x0_in : double) : double :=
  match n with
  | O => x0_in
  | S n' => euler_kernel_loop F_in dt n' (x0_in +d F_in *d x0_in *d to_double dt)
  end.

(** [tid / W] and [tid % W] are undefined for [W = 0]. *)
Definition euler_kernel (F : Tensor2) (dt : float) (steps W : Z) (tid : Z)
    (x0 : list float) : option (list float) :=
  if decide (W = 0) then None
  else
    let row := tid `quot` W in
    let col := tid `rem` W in
    x0_in ← load x0 tid;
    F_in ← load2 F row col;
    if decide (tid < W * W) then
      store x0 tid
        (to_float (euler_kernel_loop (to_double F_in) dt (Z.to_nat steps)
                     (to_double x0_in)))
    else Some x0.

(** The [int] arithmetic of [W*W + threadsPerBlock - 1] must not overflow;
    the [double] argument [dt] is converted to the [float] parameter of the
    kernel. *)
Definition euler_solver_cuda (F : Tensor2) (x0 : list float) (dt : double)
    (steps W : Z) : option (list float) :=
  if decide (W * W + threadsPerBlock - 1 ≤ INT_MAX) then
    launch ((W * W + threadsPerBlock - 1) `quot` threadsPerBlock) threadsPerBlock
      (euler_kernel F (to_float dt) steps W) x0
  else None.

(** ** Vocabulary of the properties *)

(** A binary32 value, as opposed to an arbitrary sign, mantissa and
    exponent. *)
Definition valid_float (x : float) : Prop :=
  valid_binary 24 128 (float_val x) = true.

(** A loop runs to its end when it has no iteration to make or the method
    pointer is not null. *)
Definition loop_defined (method : method_t) (steps : Z) : Prop :=
  steps ≤ 0 ∨ method ≠ nullptr.

(** The final value of element [i] under a diagonal kernel that reads the
    coefficient [c] for it: the loop of the kernel, run from the initial
    value of the element. *)
Definition diagonal_cell (method : method_t) (c : float) (g : list float)
    (dt : float) (steps : Z) (x0 : list float) (i : nat) : option float :=
  x0_in ← x0 !! i; g_in ← g !! i;
  diagonal_loop method c g_in dt (Z.to_nat steps) x0_in.

(** The coefficients that the thread [tid] of a paired kernel reads. *)
Definition compact_coeffs (F_a : Tensor2) : option coeffs :=
  UL ← load2 F_a 0 0; UR ← load2 F_a 0 1;
  LL ← load2 F_a 1 0; LR ← load2 F_a 1 1;
  Some (Coeffs UL UR LL LR).

Definition general_coeffs (F_a : Tensor2) (x0_size tid : Z) : option coeffs :=
  UL ← load2 F_a tid tid;
  UR ← load2 F_a tid (tid + x0_size `quot` 2);
  LL ← load2 F_a (tid + x0_size `quot` 2) tid;
  LR ← load2 F_a (tid + x0_size `quot` 2) (tid + x0_size `quot` 2);
  Some (Coeffs UL UR LL LR).

(** The common shape of the two paired kernels, with the reading of the
    coefficients left open. *)
Definition skew_thread (cf : Z → option coeffs) (method : method_t)
    (g_a : list float) (dt : float) (steps x0_size : Z) (tid : Z)
    (x0_a : list float) : option (list float) :=
  if decide (tid < x0_size `quot` 2) then
    g_in_1 ← load g_a tid;
    g_in_2 ← load g_a (tid + x0_size `quot` 2);
    x0_in_1 ← load x0_a tid;
    x0_in_2 ← load x0_a (tid + x0_size `quot` 2);
    c ← cf tid;
    x ← skew_loop method c g_in_1 g_in_2 dt (Z.to_nat steps) (x0_in_1, x0_in_2);
    x0_a ← store x0_a tid x.1;
    store x0_a (tid + x0_size `quot` 2) x.2
  else Some x0_a.

(** The final values of the pair [(i, i + W/2)]: the loop of the kernel,
    run from the initial values of the pair. *)
Definition skew_cells (cf : Z → option coeffs) (method : method_t)
    (g : list float) (dt : float) (steps : Z) (x0 : list float) (i : nat)
    : option (float * float) :=
  let h := (length x0 / 2)%nat in
  x0_in_1 ← x0 !! i; x0_in_2 ← x0 !! (i + h)%nat;
  g_in_1 ← g !! i; g_in_2 ← g !! (i + h)%nat;
  c ← cf (Z.of_nat i);
  skew_loop method c g_in_1 g_in_2 dt (Z.to_nat steps) (x0_in_1, x0_in_2).

(** The coefficients of the pair of thread [tid] in the paired kernel that
    [solve_cuda] selects for [F]. *)
Definition solve_coeffs (F : Tensor2) (x0_size : Z) : Z → option coeffs :=
  match size0 F with
  | 2 => λ _, compact_coeffs F
  | _ => general_coeffs F x0_size
  end.

(** The recognized shapes of the coefficient matrix for a state of length
    [W]: square, of size 1, 2 or [W]. *)
Definition recognized_shape (F : Tensor2) (W : nat) : Prop :=
  size1 F = size0 F
  ∧ Z.of_nat (length (data F)) = size0 F * size1 F
  ∧ (size0 F = 1 ∨ size0 F = 2 ∨ size0 F = Z.of_nat W).

(** A valid call: a matrix of a recognized shape, a scale vector as long
    as the state vector, and a length that fits the [int] parameter of the
    kernels. *)
Definition valid_call (F : Tensor2) (x0 g : list float) : Prop :=
  recognized_shape F (length x0)
  ∧ length g = length x0
  ∧ Z.of_nat (length x0) ≤ INT_MAX.

(** The stages of the fourth-order method as the design document lists
    them, in the arithmetic of the source: [f1] is a product of [float]s,
    every later stage is computed in [double]. *)
Definition rk4_f1 (coefficient scale dt : float) : float :=
  coefficient *f scale *f dt.
Definition rk4_c2 (coefficient scale dt : float) : double :=
  to_double (dt *f rk4_f1 coefficient scale dt) /d d2_0.
Definition rk4_f2 (coefficient scale dt : float) : double :=
  to_double coefficient *d (to_double scale +d rk4_c2 coefficient scale dt)
  *d (to_double dt /d d2_0).
Definition rk4_c3 (coefficient scale dt : float) : double :=
  to_double dt *d rk4_f2 coefficient scale dt /d d2_0.
Definition rk4_f3 (coefficient scale dt : float) : double :=
  to_double coefficient *d (to_double scale +d rk4_c3 coefficient scale dt)
  *d (to_double dt /d d2_0).
Definition rk4_c4 (coefficient scale dt : float) : double :=
  to_double dt *d rk4_f3 coefficient scale dt.
Definition rk4_f4 (coefficient scale dt : float) : double :=
  to_double coefficient *d (to_double scale +d rk4_c4 coefficient scale dt)
  *d to_double dt.
Definition rk4_increment (coefficient scale dt : float) : double :=
  (to_double (rk4_f1 coefficient scale dt)
   +d d2_0 *d rk4_f2 coefficient scale dt
   +d d2_0 *d rk4_f3 coefficient scale dt
   +d rk4_f4 coefficient scale dt) /d d6_0.

(** A tensor that passes [CHECK_INPUT]. *)
Definition checked {A} (x : Tensor A) : Prop :=
  is_cuda x = true ∧ is_contiguous x = true.

(** A tensor on the device, contiguous. *)
Definition cuda {A} (a : A) : Tensor A := MkTensor true true a.

(** The elements of the state array that the thread [tid] of a kernel
    loads and stores. *)
Definition thread_cells (k : solver_t) (x0_size tid : Z) : list Z :=
  match k with
  | k_general_solver | k_compact_diagonal_solver =>
      if decide (tid < x0_size) then [tid] else []
  | k_general_skew_symmetric_solver | k_compact_skew_symmetric_solver =>
      if decide (tid < x0_size `quot` 2) then [tid; tid + x0_size `quot` 2] else []
  end.

(** Element [i] is covered by a launch when a thread of its grid has it
    among its elements. *)
Definition covered (l : launch_t) (i : Z) : Prop :=
  ∃ tid, tid ∈ grid (l_blocks l) (l_threads l)
         ∧ i ∈ thread_cells (l_solver l) (l_x0_size l) tid.

(** A zero of either sign; a value that is neither an infinity nor a NaN. *)
Definition is_zero (x : float) : Prop := Ieee.is_zero (float_val x) = true.
Definition is_finite (x : float) : Prop := Ieee.is_finite (float_val x) = true.

(** The same value: the same datum, or two zeros, which are equal as
    numbers whatever their signs. *)
Definition same_value (a b : float) : Prop := a = b ∨ (is_zero a ∧ is_zero b).

(** * Properties *)

(** ** Integers and the grid *)

Lemma int_id z : - 2 ^ 31 ≤ z < 2 ^ 31 → int z = z.
Proof. intros Hz. unfold int. rewrite Z.mod_small; lia. Qed.

Lemma bind_singleton_fmap {A B} (f : A → B) (l : list A) :
  (x ← l; [f x]) = f <$> l.
Proof. induction l as [|a l IH]; [done|]. by rewrite bind_cons, IH. Qed.

Lemma grid_flat blocks tpb :
  0 ≤ tpb → grid blocks tpb = int <$> seqZ 0 (blocks * tpb).
Proof.
  intros Htpb. unfold grid.
  destruct (Z.le_gt_cases blocks 0) as [Hb|Hb].
  { rewrite (seqZ_nil 0 blocks) by lia.
    rewrite (seqZ_nil 0 (blocks * tpb)) by nia. done. }
  rewrite <- (Z2Nat.id blocks) by lia.
  induction (Z.to_nat blocks) as [|n IH]; [done|].
  rewrite seqZ_S, bind_app, IH. simpl. rewrite app_nil_r.
  replace (Z.of_nat (S n) * tpb) with (Z.of_nat n * tpb + tpb) by lia.
  rewrite seqZ_app, fmap_app by lia. f_equal.
  assert (seqZ (0 + Z.of_nat n * tpb) tpb
          = Z.add (Z.of_nat n * tpb) <$> seqZ 0 tpb) as ->
    by (rewrite fmap_add_seqZ; f_equal; lia).
  rewrite bind_singleton_fmap, <- list_fmap_compose.
  apply list_fmap_ext. intros ? t _. simpl. f_equal; lia.
Qed.

(** The number of blocks that [solve_cuda] asks for, when the length of
    the state fits an [int]: enough threads for every index below the
    length, and no [tid] is changed by its conversion to [int]. *)
Lemma grid_solve W :
  0 ≤ W ≤ INT_MAX →
  ∃ n : nat,
    W ≤ Z.of_nat n ∧
    grid (int ((W + threadsPerBlock - 1) `quot` threadsPerBlock)) threadsPerBlock
    = seqZ 0 (Z.of_nat n).
Proof.
  unfold INT_MAX, threadsPerBlock. intros HW.
  rewrite Z.quot_div_nonneg by lia.
  pose proof (Z.div_mod (W + 512 - 1) 512 ltac:(lia)) as Hdm.
  pose proof (Z.mod_pos_bound (W + 512 - 1) 512 ltac:(lia)) as Hm.
  set (b := (W + 512 - 1) `div` 512) in *.
  assert (0 ≤ b ≤ 2 ^ 22) as Hb by lia.
  rewrite int_id by lia. rewrite grid_flat by lia.
  exists (Z.to_nat (b * 512)). rewrite Z2Nat.id by lia. split; [lia|].
  assert (Forall (λ z, int z = z) (seqZ 0 (b * 512))) as Hall.
  { apply Forall_seqZ. intros z Hz. apply int_id. lia. }
  induction Hall as [|z l Hz _ IH]; [done|]. by rewrite fmap_cons, Hz, IH.
Qed.

(** ** Running threads one after the other *)

Lemma run_threads_snoc kernel tids tid x0_a :
  run_threads kernel (tids ++ [tid]) x0_a
  = run_threads kernel tids x0_a ≫= kernel tid.
Proof. unfold run_threads. by rewrite foldl_app. Qed.

(** Induction over the threads [0 .. n-1]: a property of the number of
    threads that have run and of the state array. *)
Lemma run_threads_ind kernel (P : nat → list float → Prop) x0_a n :
  P 0%nat x0_a →
  (∀ k s, (k < n)%nat → P k s →
          ∃ s', kernel (Z.of_nat k) s = Some s' ∧ P (S k) s') →
  ∃ s', run_threads kernel (seqZ 0 (Z.of_nat n)) x0_a = Some s' ∧ P n s'.
Proof.
  intros H0 Hstep. induction n as [|n IH].
  - exists x0_a. split; [done|]. done.
  - destruct IH as (s & Hrun & Hs).
    { intros k s' Hk. apply Hstep. lia. }
    destruct (Hstep n s ltac:(lia) Hs) as (s' & Hk & Hs').
    exists s'. split; [|done].
    rewrite seqZ_S, run_threads_snoc, Hrun. simpl. by rewrite Z.add_0_l.
Qed.

(** ** Loads, stores and calls *)

Lemma load_nat (a : list float) (i : nat) : load a (Z.of_nat i) = a !! i.
Proof. unfold load. rewrite decide_True by lia. by rewrite Nat2Z.id. Qed.

Lemma store_nat (a : list float) (i : nat) v :
  (i < length a)%nat → store a (Z.of_nat i) v = Some (<[i := v]> a).
Proof. intros Hi. unfold store. rewrite decide_True by lia. by rewrite Nat2Z.id. Qed.

Lemma call_deref method f F_in x0_in g_in dt :
  deref method = Some f → call method F_in x0_in g_in dt = Some (f F_in x0_in g_in dt).
Proof. intros Hf. unfold call. by rewrite Hf. Qed.

(** Neither method reads its second argument. *)
Lemma call_ignores_x0_in method F_in x0_in x0_in' g_in dt :
  call method F_in x0_in g_in dt = call method F_in x0_in' g_in dt.
Proof. by destruct method. Qed.

Lemma call_is_Some method F_in x0_in g_in dt :
  method ≠ nullptr → is_Some (call method F_in x0_in g_in dt).
Proof. by destruct method; eauto. Qed.

Lemma diagonal_loop_is_Some method F_in g_in dt steps x0_in :
  loop_defined method steps →
  is_Some (diagonal_loop method F_in g_in dt (Z.to_nat steps) x0_in).
Proof.
  intros [Hs|Hm].
  - replace (Z.to_nat steps) with 0%nat by lia. by eexists.
  - revert x0_in. induction (Z.to_nat steps) as [|n IH]; intros x0_in; simpl.
    + by eexists.
    + destruct (call_is_Some method F_in x0_in g_in dt Hm) as [inc ->]. apply IH.
Qed.

Lemma skew_step_is_Some method c g_in_1 g_in_2 dt x :
  method ≠ nullptr → is_Some (skew_step method c g_in_1 g_in_2 dt x).
Proof.
  intros Hm. destruct x as [x1 x2]. unfold skew_step, call.
  destruct method; [done| |]; simpl; by eexists.
Qed.

Lemma skew_loop_is_Some method c g_in_1 g_in_2 dt steps x :
  loop_defined method steps →
  is_Some (skew_loop method c g_in_1 g_in_2 dt (Z.to_nat steps) x).
Proof.
  intros [Hs|Hm].
  - replace (Z.to_nat steps) with 0%nat by lia. by eexists.
  - revert x. induction (Z.to_nat steps) as [|n IH]; intros x; simpl.
    + by eexists.
    + destruct (skew_step_is_Some method c g_in_1 g_in_2 dt x Hm) as [x' ->].
      apply IH.
Qed.

Lemma skew_loop_S method c g_in_1 g_in_2 dt n x :
  skew_loop method c g_in_1 g_in_2 dt (S n) x
  = skew_step method c g_in_1 g_in_2 dt x ≫= skew_loop method c g_in_1 g_in_2 dt n.
Proof. done. Qed.

(** The loop unfolded at its last iteration. *)
Lemma skew_loop_S_last method c g_in_1 g_in_2 dt n x :
  skew_loop method c g_in_1 g_in_2 dt (S n) x
  = skew_loop method c g_in_1 g_in_2 dt n x ≫= skew_step method c g_in_1 g_in_2 dt.
Proof.
  revert x. induction n as [|n IH]; intros x.
  - simpl. by destruct (skew_step _ _ _ _ _ x).
  - rewrite (skew_loop_S _ _ _ _ _ (S n)), (skew_loop_S _ _ _ _ _ n).
    destruct (skew_step method c g_in_1 g_in_2 dt x) as [x'|]; [|done].
    apply IH.
Qed.

(** ** The compact diagonal kernel, launched *)

Section compact_diagonal.
Context (method : method_t) (F : Tensor2) (g : list float) (dt : float).
Context (steps : Z) (x0 : list float) (c : float).
Hypothesis Hfits : Z.of_nat (length x0) ≤ INT_MAX.
Hypothesis Hg : (length x0 ≤ length g)%nat.
Hypothesis HF : load2 F 0 0 = Some c.
Hypothesis Hloop : loop_defined method steps.

Lemma compact_diagonal_launch :
  ∃ out,
    launch (int ((Z.of_nat (length x0) + threadsPerBlock - 1) `quot` threadsPerBlock))
      threadsPerBlock
      (compact_diagonal_solver method F g dt steps (int (Z.of_nat (length x0)))) x0
    = Some out
    ∧ length out = length x0
    ∧ ∀ i, (i < length x0)%nat →
           out !! i = diagonal_cell method c g dt steps x0 i.
Proof using Hfits Hg HF Hloop.
  unfold launch. set (cell := diagonal_cell method c g dt steps x0).
  destruct (grid_solve (Z.of_nat (length x0)) ltac:(lia)) as (n & Hn & ->).
  rewrite int_id by (unfold INT_MAX in Hfits; lia).
  destruct (run_threads_ind
    (compact_diagonal_solver method F g dt steps (Z.of_nat (length x0)))
    (λ k s, length s = length x0 ∧
            ∀ i, s !! i = if decide (i < k)%nat then cell i else x0 !! i)
    x0 n) as (out & Hrun & Hlen & Hout).
  - split; [done|]. intros i. by rewrite decide_False by lia.
  - intros k s _ [Hlen Hs]. unfold compact_diagonal_solver.
    destruct (decide (Z.of_nat k < Z.of_nat (length x0))) as [Hk|Hk].
    + destruct (lookup_lt_is_Some_2 x0 k ltac:(lia)) as [x Hx].
      destruct (lookup_lt_is_Some_2 g k ltac:(lia)) as [gi Hgi].
      destruct (diagonal_loop_is_Some method c gi dt steps x Hloop) as [y Hy].
      assert (s !! k = Some x) as Hsk
        by (rewrite Hs, decide_False by lia; done).
      rewrite !load_nat, Hsk, Hgi, HF. simpl. rewrite Hy. simpl.
      rewrite store_nat by lia. eexists. split; [done|].
      split; [by rewrite length_insert|]. intros i.
      destruct (decide (i = k)) as [->|Hne].
      * rewrite list_lookup_insert_eq by lia. rewrite decide_True by lia.
        unfold cell, diagonal_cell. rewrite Hx, Hgi. simpl. by rewrite Hy.
      * rewrite list_lookup_insert_ne by done. rewrite Hs.
        destruct (decide (i < k)%nat); [by rewrite decide_True by lia|].
        by rewrite decide_False by lia.
    + exists s. split; [done|]. split; [done|]. intros i. rewrite Hs.
      destruct (decide (i < k)%nat); [by rewrite decide_True by lia|].
      destruct (decide (i < S k)%nat); [|done].
      assert (i = k) as -> by lia. unfold cell, diagonal_cell.
      by rewrite (lookup_ge_None_2 x0 k) by lia.
  - exists out. split; [done|]. split; [done|]. intros i Hi.
    rewrite Hout. by rewrite decide_True by lia.
Qed.
End compact_diagonal.

(** ** The paired kernels, launched *)

Lemma quot_2_nat (W : nat) : Z.of_nat W `quot` 2 = Z.of_nat (W / 2).
Proof. rewrite Z.quot_div_nonneg by lia. by rewrite Nat2Z.inj_div. Qed.

Lemma compact_skew_symmetric_solver_thread method F_a g_a dt steps x0_size tid x0_a :
  compact_skew_symmetric_solver method F_a g_a dt steps x0_size tid x0_a
  = skew_thread (λ _, compact_coeffs F_a) method g_a dt steps x0_size tid x0_a.
Proof.
  unfold compact_skew_symmetric_solver, skew_thread, compact_coeffs.
  case_decide; [|done].
  destruct (load g_a tid); simpl; [|done].
  destruct (load g_a (tid + x0_size `quot` 2)); simpl; [|done].
  destruct (load x0_a tid); simpl; [|done].
  destruct (load x0_a (tid + x0_size `quot` 2)); simpl; [|done].
  destruct (load2 F_a 0 0); simpl; [|done].
  destruct (load2 F_a 0 1); simpl; [|done].
  destruct (load2 F_a 1 0); simpl; [|done].
  by destruct (load2 F_a 1 1).
Qed.

Lemma general_skew_symmetric_solver_thread method F_a g_a dt steps x0_size tid x0_a :
  general_skew_symmetric_solver method F_a g_a dt steps x0_size tid x0_a
  = skew_thread (general_coeffs F_a x0_size) method g_a dt steps x0_size tid x0_a.
Proof.
  unfold general_skew_symmetric_solver, skew_thread, general_coeffs.
  case_decide; [|done].
  destruct (load g_a tid); simpl; [|done].
  destruct (load g_a (tid + x0_size `quot` 2)); simpl; [|done].
  destruct (load x0_a tid); simpl; [|done].
  destruct (load x0_a (tid + x0_size `quot` 2)); simpl; [|done].
  destruct (load2 F_a tid tid); simpl; [|done].
  destruct (load2 F_a tid (tid + x0_size `quot` 2)); simpl; [|done].
  destruct (load2 F_a (tid + x0_size `quot` 2) tid); simpl; [|done].
  by destruct (load2 F_a (tid + x0_size `quot` 2) (tid + x0_size `quot` 2)).
Qed.

Section skew_launch.
Context (cf : Z → option coeffs) (method : method_t) (g : list float) (dt : float).
Context (steps : Z) (x0 : list float).
Let W := length x0.
Let h := (W / 2)%nat.
Hypothesis Hfits : Z.of_nat W ≤ INT_MAX.
Hypothesis Hg : (W ≤ length g)%nat.
Hypothesis Hcf : ∀ i, (i < h)%nat → is_Some (cf (Z.of_nat i)).
Hypothesis Hloop : loop_defined method steps.

Lemma skew_cells_is_Some i :
  (i < h)%nat → is_Some (skew_cells cf method g dt steps x0 i).
Proof using Hg Hcf Hloop.
  intros Hi. unfold skew_cells. fold W. fold h.
  assert (2 * h ≤ W)%nat as Hh by (unfold h; apply Nat.Div0.mul_div_le).
  destruct (lookup_lt_is_Some_2 x0 i ltac:(fold W; lia)) as [x1 ->].
  destruct (lookup_lt_is_Some_2 x0 (i + h) ltac:(fold W; lia)) as [x2 ->].
  destruct (lookup_lt_is_Some_2 g i ltac:(lia)) as [g1 ->].
  destruct (lookup_lt_is_Some_2 g (i + h) ltac:(lia)) as [g2 ->].
  destruct (Hcf i Hi) as [c ->]. simpl.
  by apply skew_loop_is_Some.
Qed.

Lemma skew_launch :
  ∃ out,
    launch (int ((Z.of_nat W + threadsPerBlock - 1) `quot` threadsPerBlock))
      threadsPerBlock
      (skew_thread cf method g dt steps (int (Z.of_nat W))) x0
    = Some out
    ∧ length out = W
    ∧ (∀ i, (i < h)%nat →
         ∃ y, skew_cells cf method g dt steps x0 i = Some y
              ∧ out !! i = Some y.1 ∧ out !! (i + h)%nat = Some y.2)
    ∧ (∀ i, (2 * h ≤ i)%nat → out !! i = x0 !! i).
Proof using Hfits Hg Hcf Hloop.
  unfold launch. set (cells := skew_cells cf method g dt steps x0).
  assert (2 * h ≤ W)%nat as Hh by (unfold h; apply Nat.Div0.mul_div_le).
  destruct (grid_solve (Z.of_nat W) ltac:(lia)) as (n & Hn & ->).
  rewrite int_id by (unfold INT_MAX in Hfits; lia).
  destruct (run_threads_ind
    (skew_thread cf method g dt steps (Z.of_nat W))
    (λ k s, length s = W ∧
       ∀ i, s !! i =
            if decide (i < h ∧ i < k)%nat then fst <$> cells i
            else if decide (h ≤ i < 2 * h ∧ i - h < k)%nat
                 then snd <$> cells (i - h)%nat
                 else x0 !! i)
    x0 n) as (out & Hrun & Hlen & Hout).
  - split; [done|]. intros i. by rewrite !decide_False by lia.
  - intros k s _ [Hlen Hs]. unfold skew_thread. rewrite quot_2_nat. fold h.
    destruct (decide (Z.of_nat k < Z.of_nat h)) as [Hk|Hk].
    + destruct (skew_cells_is_Some k ltac:(lia)) as [y Hy]. fold cells in Hy.
      pose proof Hy as Hy'. unfold cells, skew_cells in Hy'. fold W in Hy'. fold h in Hy'.
      destruct (x0 !! k) as [x1|] eqn:Hx1; [|done].
      destruct (x0 !! (k + h)%nat) as [x2|] eqn:Hx2; [|done].
      destruct (g !! k) as [g1|] eqn:Hg1; [|done].
      destruct (g !! (k + h)%nat) as [g2|] eqn:Hg2; [|done].
      destruct (cf (Z.of_nat k)) as [c|] eqn:Hc; [|done].
      simpl in Hy'.
      assert (s !! k = Some x1) as Hs1
        by (rewrite Hs, !decide_False by lia; done).
      assert (s !! (k + h)%nat = Some x2) as Hs2
        by (rewrite Hs, !decide_False by lia; done).
      rewrite <- Nat2Z.inj_add, !load_nat, Hg1, Hg2, Hs1, Hs2. simpl.
      rewrite Hy'. simpl.
      rewrite store_nat by lia. simpl.
      rewrite store_nat by (rewrite length_insert; lia).
      eexists. split; [done|].
      split; [by rewrite !length_insert|]. intros i.
      destruct (decide (i = k + h)%nat) as [->|Hne2].
      { rewrite list_lookup_insert_eq by (rewrite length_insert; lia).
        rewrite decide_False, decide_True by lia.
        replace (k + h - h)%nat with k by lia. by rewrite Hy. }
      rewrite list_lookup_insert_ne by done.
      destruct (decide (i = k)) as [->|Hne1].
      { rewrite list_lookup_insert_eq by lia.
        rewrite decide_True by lia. by rewrite Hy. }
      rewrite list_lookup_insert_ne by done. rewrite Hs.
      repeat case_decide; (done || lia).
    + exists s. split; [done|]. split; [done|]. intros i. rewrite Hs.
      repeat case_decide; (done || lia).
  - exists out. split; [done|]. split; [done|]. split.
    + intros i Hi. destruct (skew_cells_is_Some i Hi) as [y Hy].
      exists y. split; [done|]. rewrite !Hout. fold cells in Hy.
      rewrite decide_True by lia. rewrite Hy.
      rewrite decide_False, decide_True by lia.
      replace (i + h - h)%nat with i by lia. by rewrite Hy.
    + intros i Hi. rewrite Hout. by rewrite !decide_False by lia.
Qed.
End skew_launch.

(** ** [solve_cuda] on valid calls *)

Lemma run_threads_ext k1 k2 tids x0_a :
  (∀ tid s, k1 tid s = k2 tid s) →
  run_threads k1 tids x0_a = run_threads k2 tids x0_a.
Proof.
  intros Hk. unfold run_threads. generalize (Some x0_a).
  induction tids as [|tid tids IH]; intros acc; [done|]. simpl.
  rewrite <- IH. by destruct acc; simpl; rewrite ?Hk.
Qed.

Lemma load_is_Some (a : list float) (i : Z) :
  0 ≤ i < Z.of_nat (length a) → is_Some (load a i).
Proof.
  intros Hi. unfold load. rewrite decide_True by lia.
  apply lookup_lt_is_Some_2. lia.
Qed.

Lemma recognized_shape_1 F W :
  recognized_shape F W → size0 F = 1 → is_Some (load2 F 0 0).
Proof.
  intros (H1 & Hlen & _) H0. unfold load2. apply load_is_Some.
  rewrite Hlen, H1, H0. lia.
Qed.

Lemma recognized_shape_2 F W :
  recognized_shape F W → size0 F = 2 → is_Some (compact_coeffs F).
Proof.
  intros (H1 & Hlen & _) H0. unfold compact_coeffs, load2.
  rewrite H1, H0 in *.
  destruct (load_is_Some (data F) (0 * 2 + 0) ltac:(lia)) as [? ->].
  destruct (load_is_Some (data F) (0 * 2 + 1) ltac:(lia)) as [? ->].
  destruct (load_is_Some (data F) (1 * 2 + 0) ltac:(lia)) as [? ->].
  destruct (load_is_Some (data F) (1 * 2 + 1) ltac:(lia)) as [? ->].
  by eexists.
Qed.

Lemma recognized_shape_W F (W i : nat) :
  recognized_shape F W → size0 F = Z.of_nat W → (i < W / 2)%nat →
  is_Some (general_coeffs F (Z.of_nat W) (Z.of_nat i)).
Proof.
  intros (H1 & Hlen & _) H0 Hi. unfold general_coeffs, load2.
  rewrite quot_2_nat. rewrite H1, H0 in *.
  assert (2 * (W / 2) ≤ W)%nat as Hh by apply Nat.Div0.mul_div_le.
  set (h := (W / 2)%nat) in *.
  destruct (load_is_Some (data F) (Z.of_nat i * Z.of_nat W + Z.of_nat i)
              ltac:(nia)) as [? ->].
  destruct (load_is_Some (data F)
              (Z.of_nat i * Z.of_nat W + (Z.of_nat i + Z.of_nat h))
              ltac:(nia)) as [? ->].
  destruct (load_is_Some (data F)
              ((Z.of_nat i + Z.of_nat h) * Z.of_nat W + Z.of_nat i)
              ltac:(nia)) as [? ->].
  destruct (load_is_Some (data F)
              ((Z.of_nat i + Z.of_nat h) * Z.of_nat W + (Z.of_nat i + Z.of_nat h))
              ltac:(nia)) as [? ->].
  by eexists.
Qed.

Lemma solve_coeffs_is_Some F (W i : nat) :
  recognized_shape F W → size0 F ≠ 1 → (i < W / 2)%nat →
  is_Some (solve_coeffs F (Z.of_nat W) (Z.of_nat i)).
Proof.
  intros HF H1 Hi. unfold solve_coeffs.
  destruct (decide (size0 F = 2)) as [H2|H2].
  - rewrite H2. by eapply recognized_shape_2.
  - assert (size0 F = Z.of_nat W) as HW by (destruct HF as (_ & _ & [|[|]]); done).
    pose proof (recognized_shape_W F W i HF HW Hi) as Hs.
    destruct (size0 F) as [|[[]|[]|]|]; done.
Qed.

(** The kernel that [solve_cuda] launches when the leading dimension is
    not 1 is the paired thread with the coefficients [solve_coeffs]. *)
Lemma solve_cuda_skew F x0 g dt steps name :
  size0 F ≠ 1 → Z.of_nat (length x0) ≤ INT_MAX →
  solve_cuda F x0 g dt steps name
  = launch (int ((Z.of_nat (length x0) + threadsPerBlock - 1) `quot` threadsPerBlock))
      threadsPerBlock
      (skew_thread (solve_coeffs F (Z.of_nat (length x0)))
         (subscript h_methods name) g dt steps (int (Z.of_nat (length x0)))) x0.
Proof.
  intros H1 Hfits. unfold solve_cuda, run_launch, solve_cuda_launch, launch. simpl.
  apply run_threads_ext. intros tid s.
  rewrite (int_id (Z.of_nat (length x0))) by (unfold INT_MAX in Hfits; lia).
  unfold select_solver, solve_coeffs.
  destruct (size0 F) as [|[[]|[]|]|]; simpl;
    first [done
          | apply compact_skew_symmetric_solver_thread
          | apply general_skew_symmetric_solver_thread].
Qed.

Lemma solve_cuda_diagonal F x0 g dt steps name :
  size0 F = 1 →
  solve_cuda F x0 g dt steps name
  = launch (int ((Z.of_nat (length x0) + threadsPerBlock - 1) `quot` threadsPerBlock))
      threadsPerBlock
      (compact_diagonal_solver (subscript h_methods name) F g dt steps
         (int (Z.of_nat (length x0)))) x0.
Proof. intros H1. unfold solve_cuda, run_launch, solve_cuda_launch. simpl. by rewrite H1. Qed.

Lemma subscript_recognized name :
  name = "Euler" ∨ name = "RK4" → subscript h_methods name ≠ nullptr.
Proof. by intros [-> | ->]. Qed.

Lemma solve_cuda_valid_diagonal F x0 g dt steps name c :
  valid_call F x0 g → size0 F = 1 → load2 F 0 0 = Some c →
  loop_defined (subscript h_methods name) steps →
  ∃ out,
    solve_cuda F x0 g dt steps name = Some out
    ∧ length out = length x0
    ∧ ∀ i, (i < length x0)%nat →
           out !! i = diagonal_cell (subscript h_methods name) c g dt steps x0 i.
Proof.
  intros (_ & Hg & Hfits) H1 Hc Hloop. rewrite solve_cuda_diagonal by done.
  apply compact_diagonal_launch; [done|lia|done|done].
Qed.

Lemma solve_cuda_valid_skew F x0 g dt steps name :
  valid_call F x0 g → size0 F ≠ 1 →
  loop_defined (subscript h_methods name) steps →
  ∃ out,
    solve_cuda F x0 g dt steps name = Some out
    ∧ length out = length x0
    ∧ (∀ i, (i < length x0 / 2)%nat →
         ∃ y, skew_cells (solve_coeffs F (Z.of_nat (length x0)))
                (subscript h_methods name) g dt steps x0 i = Some y
              ∧ out !! i = Some y.1
              ∧ out !! (i + length x0 / 2)%nat = Some y.2)
    ∧ (∀ i, (2 * (length x0 / 2) ≤ i)%nat → out !! i = x0 !! i).
Proof.
  intros (HF & Hg & Hfits) H1 Hloop. rewrite solve_cuda_skew by done.
  apply skew_launch; [done|lia| |done].
  intros i Hi. by apply solve_coeffs_is_Some.
Qed.

(** Without an iteration to make, a valid call returns the state as it
    was given, whatever the method name. *)
Lemma solve_cuda_no_steps F x0 g dt steps name :
  valid_call F x0 g → steps ≤ 0 → solve_cuda F x0 g dt steps name = Some x0.
Proof.
  intros Hv Hs. assert (Z.to_nat steps = 0%nat) as Hn by lia.
  destruct (decide (size0 F = 1)) as [H1|H1].
  - destruct (recognized_shape_1 F (length x0) (proj1 Hv) H1) as [c Hc].
    destruct (solve_cuda_valid_diagonal F x0 g dt steps name c Hv H1 Hc)
      as (out & -> & Hlen & Hout); [by left|].
    f_equal. apply list_eq. intros i.
    destruct (decide (i < length x0)%nat) as [Hi|Hi].
    + rewrite Hout by done. unfold diagonal_cell. rewrite Hn.
      destruct (x0 !! i) as [x|] eqn:Hx; [|done]. simpl.
      destruct Hv as (_ & Hg & _).
      by destruct (lookup_lt_is_Some_2 g i ltac:(lia)) as [gi ->].
    + by rewrite !lookup_ge_None_2 by lia.
  - destruct (solve_cuda_valid_skew F x0 g dt steps name Hv H1)
      as (out & -> & Hlen & Hpair & Hrest); [by left|].
    f_equal. apply list_eq. intros i.
    set (h := (length x0 / 2)%nat) in *.
    assert (∀ j, (j < h)%nat →
              out !! j = x0 !! j ∧ out !! (j + h)%nat = x0 !! (j + h)%nat) as Hj.
    { intros j Hj. destruct (Hpair j Hj) as (y & Hy & -> & ->).
      unfold skew_cells in Hy. fold h in Hy. rewrite Hn in Hy.
      destruct (x0 !! j) as [x1|]; [|done].
      destruct (x0 !! (j + h)%nat) as [x2|]; [|done].
      destruct (g !! j) as [g1|]; [|done].
      destruct (g !! (j + h)%nat) as [g2|]; [|done].
      destruct (solve_coeffs _ _ _) as [c|]; [|done].
      simpl in Hy. by injection Hy as <-. }
    destruct (decide (i < h)%nat) as [Hi|Hi]; [by apply Hj|].
    destruct (decide (i < 2 * h)%nat) as [Hi2|Hi2]; [|apply Hrest; lia].
    replace i with (i - h + h)%nat by lia. apply Hj. lia.
Qed.

(** ** The stepping methods *)

(** C6. The Euler stepping function returns the increment
    [coefficient * scale_input * dt], and that increment does not depend
    on the current value it is given. *)
Theorem euler_method_increment (coefficient current_value scale_input dt : float) :
  euler_method coefficient current_value scale_input dt
  = coefficient *f scale_input *f dt
  ∧ ∀ other_value,
      euler_method coefficient other_value scale_input dt
      = euler_method coefficient current_value scale_input dt.
Proof. split; [reflexivity|]. intros other_value. reflexivity. Qed.

(** C5. The fourth-order stepping function returns the documented
    weighted sum [(f1 + 2 f2 + 2 f3 + f4) / 6] of the four documented
    stages, narrowed to [float]; like the Euler increment it does not
    depend on the current value. *)
Theorem rk4_method_stages (coefficient current_value scale dt : float) :
  rk4_method coefficient current_value scale dt
  = to_float (rk4_increment coefficient scale dt).
Proof.
  unfold rk4_method, rk4_increment, rk4_f4, rk4_c4, rk4_f3, rk4_c3, rk4_f2,
    rk4_c2, rk4_f1.
  reflexivity.
Qed.

(** The stages at [coefficient = 2], [scale = 1], [dt = 1/2], against the
    values computed by hand: [f1 = 1], [c2 = 1/4], [f2 = 5/8],
    [c3 = 5/32], [f3 = 37/64], [c4 = 37/128], [f4 = 165/128], and the
    increment [601/128 / 6] rounded first to [double], then to [float]. *)
Example rk4_stages_by_hand :
  let coefficient := float_lit 2 0 in
  let scale := float_lit 1 0 in
  let dt := float_lit 1 (-1) in
  rk4_f1 coefficient scale dt = float_lit 1 0
  ∧ rk4_c2 coefficient scale dt = double_lit 1 (-2)
  ∧ rk4_f2 coefficient scale dt = double_lit 5 (-3)
  ∧ rk4_c3 coefficient scale dt = double_lit 5 (-5)
  ∧ rk4_f3 coefficient scale dt = double_lit 37 (-6)
  ∧ rk4_c4 coefficient scale dt = double_lit 37 (-7)
  ∧ rk4_f4 coefficient scale dt = double_lit 165 (-7)
  ∧ rk4_increment coefficient scale dt = double_lit 601 (-7) /d d6_0
  ∧ rk4_method coefficient (float_lit 7 0) scale dt = float_lit 13129045 (-24).
Proof. vm_compute. repeat split. Qed.

(** ** Dispatch *)

(** C7. What [solve_cuda] runs is chosen by the leading dimension of the
    coefficient matrix alone: for every state, scale vector, time step,
    number of steps and method name, the call is the launch of
    [compact_diagonal_solver] when the leading dimension is 1, of
    [compact_skew_symmetric_solver] when it is 2, and of
    [general_skew_symmetric_solver] for every other value, on the grid and
    with the arguments of the call.  The kernel of the launch is therefore
    the one [select_solver] names for the leading dimension, and never
    [general_solver]. *)
Theorem dispatch_by_leading_dimension :
  (∀ F x0 g dt steps name, size0 F = 1 →
     solve_cuda F x0 g dt steps name
     = launch (int ((Z.of_nat (length x0) + threadsPerBlock - 1) `quot` threadsPerBlock))
         threadsPerBlock
         (compact_diagonal_solver (subscript h_methods name) F g dt steps
            (int (Z.of_nat (length x0)))) x0)
  ∧ (∀ F x0 g dt steps name, size0 F = 2 →
     solve_cuda F x0 g dt steps name
     = launch (int ((Z.of_nat (length x0) + threadsPerBlock - 1) `quot` threadsPerBlock))
         threadsPerBlock
         (compact_skew_symmetric_solver (subscript h_methods name) F g dt steps
            (int (Z.of_nat (length x0)))) x0)
  ∧ (∀ F x0 g dt steps name, size0 F ≠ 1 → size0 F ≠ 2 →
     solve_cuda F x0 g dt steps name
     = launch (int ((Z.of_nat (length x0) + threadsPerBlock - 1) `quot` threadsPerBlock))
         threadsPerBlock
         (general_skew_symmetric_solver (subscript h_methods name) F g dt steps
            (int (Z.of_nat (length x0)))) x0)
  ∧ (∀ F x0 g dt steps name,
     solve_cuda F x0 g dt steps name
     = launch (int ((Z.of_nat (length x0) + threadsPerBlock - 1) `quot` threadsPerBlock))
         threadsPerBlock
         (solver_body (select_solver (size0 F)) (subscript h_methods name) F g dt
            steps (int (Z.of_nat (length x0)))) x0
     ∧ l_solver (solve_cuda_launch F x0 name) = select_solver (size0 F)
     ∧ select_solver (size0 F) ≠ k_general_solver)
  ∧ select_solver 1 = k_compact_diagonal_solver
  ∧ select_solver 2 = k_compact_skew_symmetric_solver
  ∧ (∀ F_size, F_size ≠ 1 → F_size ≠ 2 →
       select_solver F_size = k_general_skew_symmetric_solver).
Proof.
  split; [|split; [|split; [|split; [|split; [done|split; [done|]]]]]].
  - intros F x0 g dt steps name H1.
    unfold solve_cuda, run_launch, solve_cuda_launch. simpl. by rewrite H1.
  - intros F x0 g dt steps name H2.
    unfold solve_cuda, run_launch, solve_cuda_launch. simpl. by rewrite H2.
  - intros F x0 g dt steps name H1 H2.
    unfold solve_cuda, run_launch, solve_cuda_launch. simpl.
    unfold select_solver. destruct (size0 F) as [|[[]|[]|]|]; done.
  - intros F x0 g dt steps name. split; [done|]. split; [done|].
    unfold select_solver. destruct (size0 F) as [|[[]|[]|]|]; done.
  - intros F_size H1 H2. unfold select_solver.
    destruct F_size as [|[[]|[]|]|]; done.
Qed.

(** The kernel matters: on a 3x3 matrix and a state of three elements,
    [general_solver], which the dispatch never launches, would have left
    another state than the call does. *)
Example general_solver_would_differ :
  let F := {| size0 := 3; size1 := 3;
              data := [float_lit 1 0; float_lit 1 0; float_lit 1 0;
                       float_lit 1 0; float_lit 1 0; float_lit 1 0;
                       float_lit 1 0; float_lit 1 0; float_lit 1 0] |} in
  let x0 := [float_lit 1 0; float_lit 1 0; float_lit 1 0] in
  let g := [float_lit 1 0; float_lit 1 0; float_lit 1 0] in
  solve_cuda F x0 g (float_lit 1 0) 1 "Euler"
  = Some [float_lit 3 0; float_lit 5 0; float_lit 1 0]
  ∧ launch 1 threadsPerBlock
      (general_solver (subscript h_methods "Euler") F g (float_lit 1 0) 1 3) x0
    = Some [float_lit 2 0; float_lit 2 0; float_lit 2 0].
Proof. by vm_compute. Qed.

(** ** No iteration *)

(** A call on given tensors is valid, by computation. *)
Ltac valid_call_by_computation :=
  split; [|split];
  [ split; [done|]; split; [done|];
    first [by left | right; by left | right; by right]
  | done
  | by vm_compute ].

(** C9, as the code has it.  On a valid call (a coefficient matrix of a
    recognized shape, state and scale vectors of equal length, a length
    that fits the [int] parameter of the kernels, which is part of
    [valid_call], and either method name), [steps = 0] leaves every
    element of the state vector as it was. *)
Theorem steps_zero_identity F x0 g dt name :
  valid_call F x0 g → name = "Euler" ∨ name = "RK4" →
  solve_cuda F x0 g dt 0 name = Some x0.
Proof. intros Hv _. by apply solve_cuda_no_steps. Qed.

Lemma steps_zero_identity_witness :
  solve_cuda {| size0 := 2; size1 := 2;
                data := [float_lit 1 0; float_lit 2 0; float_lit 3 0; float_lit 4 0] |}
    [float_lit 1 0; float_lit 5 0; float_lit 7 0]
    [float_lit 1 0; float_lit 1 0; float_lit 1 0] (float_lit 1 (-1)) 0 "RK4"
  = Some [float_lit 1 0; float_lit 5 0; float_lit 7 0].
Proof.
  apply steps_zero_identity; [valid_call_by_computation|by right].
Defined.

(** ** What the entry point checks *)

Lemma CHECK_INPUT_checked {A} (x : Tensor A) name :
  checked x → CHECK_INPUT x name = None.
Proof. intros [Hc Hk]. unfold CHECK_INPUT. by rewrite Hc, Hk. Qed.

Lemma solve_cpp_checked F x0 g dt steps name :
  checked F → checked x0 → checked g →
  solve_cpp F x0 g dt steps name
  = Returned (solve_cuda (contents F) (contents x0) (contents g) dt steps name).
Proof.
  intros HF Hx0 Hg. unfold solve_cpp.
  by rewrite !CHECK_INPUT_checked by done.
Qed.

Lemma subscript_unrecognized name :
  name ≠ "Euler" → name ≠ "RK4" → subscript h_methods name = nullptr.
Proof.
  intros HE HR. unfold subscript, h_methods.
  by rewrite !lookup_insert_ne, lookup_empty by done.
Qed.

(** C1, as the code has it.  A method name other than ["Euler"] and
    ["RK4"] is not rejected: the lookup yields the null method pointer,
    and the kernel selected by the leading dimension is launched with it
    as its stepping function. *)
Theorem unrecognized_method_launches_null F x0 g dt steps name :
  checked F → checked x0 → checked g →
  name ≠ "Euler" → name ≠ "RK4" →
  subscript h_methods name = nullptr
  ∧ solve_cpp F x0 g dt steps name
    = Returned
        (launch
           (int ((Z.of_nat (length (contents x0)) + threadsPerBlock - 1)
                 `quot` threadsPerBlock))
           threadsPerBlock
           (solver_body (select_solver (size0 (contents F))) nullptr
              (contents F) (contents g) dt steps
              (int (Z.of_nat (length (contents x0)))))
           (contents x0)).
Proof.
  intros HF Hx0 Hg HE HR.
  pose proof (subscript_unrecognized name HE HR) as Hnull.
  split; [done|]. rewrite solve_cpp_checked by done.
  unfold solve_cuda, run_launch, solve_cuda_launch. simpl. by rewrite Hnull.
Qed.

Lemma unrecognized_method_launches_null_witness :
  subscript h_methods "Heun" = nullptr
  ∧ solve_cpp (cuda {| size0 := 1; size1 := 1; data := [float_lit 2 0] |})
      (cuda [float_lit 1 0; float_lit 1 0]) (cuda [float_lit 1 0; float_lit 1 0])
      (float_lit 1 (-1)) 3 "Heun"
    = Returned
        (launch 1 threadsPerBlock
           (solver_body k_compact_diagonal_solver nullptr
              {| size0 := 1; size1 := 1; data := [float_lit 2 0] |}
              [float_lit 1 0; float_lit 1 0] (float_lit 1 (-1)) 3 2)
           [float_lit 1 0; float_lit 1 0]).
Proof.
  apply (unrecognized_method_launches_null
           (cuda {| size0 := 1; size1 := 1; data := [float_lit 2 0] |})
           (cuda [float_lit 1 0; float_lit 1 0])
           (cuda [float_lit 1 0; float_lit 1 0])
           (float_lit 1 (-1)) 3 "Heun"); done.
Defined.

(** C1 fails on the code.  With the name ["Heun"] the call raises no
    error: the method pointer is null, a grid of one block is launched, and
    with no iteration to make the call returns the state; with one
    iteration the kernel calls through the null pointer. *)
Lemma unknown_method_Heun_proceeds :
  let F := {| size0 := 1; size1 := 1; data := [float_lit 2 0] |} in
  let x0 := [float_lit 1 0; float_lit 1 0] in
  let g := [float_lit 1 0; float_lit 1 0] in
  let dt := float_lit 1 (-1) in
  solve_cuda_launch F x0 "Heun"
  = Launch k_compact_diagonal_solver 1 512 nullptr 2
  ∧ solve_cpp (cuda F) (cuda x0) (cuda g) dt 0 "Heun" = Returned (Some x0)
  ∧ solve_cpp (cuda F) (cuda x0) (cuda g) dt 1 "Heun" = Returned None
  ∧ ¬ ∃ msg, solve_cpp (cuda F) (cuda x0) (cuda g) dt 0 "Heun" = AssertFailed msg.
Proof.
  repeat split; try by vm_compute.
  intros [msg Hmsg]. by vm_compute in Hmsg.
Qed.

(** ** The length of the scale vector *)

Lemma load_take (a : list float) (n : nat) (i : Z) :
  i < Z.of_nat n → load (take n a) i = load a i.
Proof.
  intros Hi. unfold load. case_decide; [|done].
  apply lookup_take_lt. lia.
Qed.

Lemma load_neg (a : list float) (i : Z) : i < 0 → load a i = None.
Proof. intros Hi. unfold load. by rewrite decide_False by lia. Qed.

Lemma int_le (z : Z) : 0 ≤ z → int z ≤ z.
Proof.
  intros Hz. unfold int.
  pose proof (Z.mod_le (z + 2 ^ 31) (2 ^ 32) ltac:(lia) ltac:(lia)). lia.
Qed.

(** A thread reads the scale vector below the length of the state only. *)
Lemma solver_body_take k method F g dt steps (W : nat) tid s :
  solver_body k method F (take W g) dt steps (int (Z.of_nat W)) tid s
  = solver_body k method F g dt steps (int (Z.of_nat W)) tid s.
Proof.
  pose proof (int_le (Z.of_nat W) ltac:(lia)) as HW.
  set (x0_size := int (Z.of_nat W)) in *.
  assert (x0_size `quot` 2 + x0_size `quot` 2 ≤ Z.of_nat W ∨ x0_size `quot` 2 ≤ 0)
    as Hh.
  { destruct (Z.le_gt_cases 0 x0_size) as [Hx|Hx].
    - left. pose proof (Z.quot_pos x0_size 2 Hx ltac:(lia)).
      pose proof (Z.mul_quot_le x0_size 2 Hx ltac:(lia)). lia.
    - right. apply Z.quot_le_upper_bound; lia. }
  destruct k; simpl;
    unfold general_solver, compact_diagonal_solver,
      general_skew_symmetric_solver, compact_skew_symmetric_solver;
    case_decide; try done.
  - destruct (load s tid); [|done]. simpl. by rewrite load_take by lia.
  - destruct (load s tid); [|done]. simpl. by rewrite load_take by lia.
  - destruct (decide (0 ≤ tid)) as [Ht|Ht].
    + by rewrite !load_take by lia.
    + by rewrite (load_neg (take W g) tid), (load_neg g tid) by lia.
  - destruct (decide (0 ≤ tid)) as [Ht|Ht].
    + by rewrite !load_take by lia.
    + by rewrite (load_neg (take W g) tid), (load_neg g tid) by lia.
Qed.

(** C8, as the code has it.  The lengths of the state and of the scale
    vector are not compared: the entry point asserts the device and the
    layout of its tensors only, the kernel is launched with the length of
    the state, and the threads read the scale vector below that length, so
    that a longer scale vector is accepted and gives the result of its
    first [x0.length] entries. *)
Theorem scale_vector_length_not_checked F x0 g dt steps name :
  checked F → checked x0 → checked g →
  solve_cpp F x0 g dt steps name
  = Returned
      (solve_cuda (contents F) (contents x0)
         (take (length (contents x0)) (contents g)) dt steps name).
Proof.
  intros HF Hx0 Hg. rewrite solve_cpp_checked by done. f_equal.
  unfold solve_cuda, run_launch, solve_cuda_launch, launch. simpl.
  apply run_threads_ext. intros tid s. symmetry. apply solver_body_take.
Qed.

Lemma scale_vector_length_not_checked_witness :
  solve_cpp (cuda {| size0 := 1; size1 := 1; data := [float_lit 2 0] |})
    (cuda [float_lit 1 0]) (cuda [float_lit 1 0; float_lit 3 0])
    (float_lit 1 (-1)) 1 "Euler"
  = Returned
      (solve_cuda {| size0 := 1; size1 := 1; data := [float_lit 2 0] |}
         [float_lit 1 0] [float_lit 1 0] (float_lit 1 (-1)) 1 "Euler").
Proof.
  apply (scale_vector_length_not_checked
           (cuda {| size0 := 1; size1 := 1; data := [float_lit 2 0] |})
           (cuda [float_lit 1 0]) (cuda [float_lit 1 0; float_lit 3 0])); done.
Defined.

(** C8 fails on the code.  A state of length 1 with a scale vector of
    length 2 is not rejected: the kernel runs and the state is changed
    from [1] to [1 + 2 * 1 * 0.5 = 2]. *)
Lemma length_mismatch_accepted :
  solve_cpp (cuda {| size0 := 1; size1 := 1; data := [float_lit 2 0] |})
    (cuda [float_lit 1 0]) (cuda [float_lit 1 0; float_lit 3 0])
    (float_lit 1 (-1)) 1 "Euler"
  = Returned (Some [float_lit 2 0])
  ∧ float_lit 2 0 ≠ float_lit 1 0.
Proof. split; by vm_compute. Qed.

(** ** The paired update *)

Lemma skew_step_deref method f c g_in_1 g_in_2 dt x0_in_1 x0_in_2 :
  deref method = Some f →
  skew_step method c g_in_1 g_in_2 dt (x0_in_1, x0_in_2)
  = let x0_in_1' :=
      x0_in_1 +f f (UL_v c) x0_in_1 g_in_1 dt +f f (UR_v c) x0_in_2 g_in_2 dt in
    Some (x0_in_1',
          x0_in_1' +f f (LL_v c) x0_in_1' g_in_1 dt +f f (LR_v c) x0_in_2 g_in_2 dt).
Proof. intros Hf. unfold skew_step, call. rewrite Hf. done. Qed.

(** C2. In both paired kernels, every timestep updates the two elements
    of a pair one after the other.  With [before] the state returned after
    [steps] timesteps and [after] the state returned after one timestep
    more, element [i] of [after] is computed from the pair of [before], and
    element [i + W/2] of [after] is computed from that new value of element
    [i], not from the old one. *)
Theorem paired_update_is_sequential F x0 g dt steps name f (i : nat) c g_in_1 g_in_2 :
  valid_call F x0 g → size0 F ≠ 1 → 0 ≤ steps →
  deref (subscript h_methods name) = Some f →
  (i < length x0 / 2)%nat →
  solve_coeffs F (Z.of_nat (length x0)) (Z.of_nat i) = Some c →
  g !! i = Some g_in_1 → g !! (i + length x0 / 2)%nat = Some g_in_2 →
  ∃ before after x1 x2 x1' x2',
    solve_cuda F x0 g dt steps name = Some before
    ∧ solve_cuda F x0 g dt (steps + 1) name = Some after
    ∧ before !! i = Some x1 ∧ before !! (i + length x0 / 2)%nat = Some x2
    ∧ after !! i = Some x1' ∧ after !! (i + length x0 / 2)%nat = Some x2'
    ∧ x1' = x1 +f f (UL_v c) x1 g_in_1 dt +f f (UR_v c) x2 g_in_2 dt
    ∧ x2' = x1' +f f (LL_v c) x1' g_in_1 dt +f f (LR_v c) x2 g_in_2 dt.
Proof.
  intros Hv H1 Hs Hf Hi Hc Hg1 Hg2.
  assert (subscript h_methods name ≠ nullptr) as Hm
    by (intros Hn; by rewrite Hn in Hf).
  destruct (solve_cuda_valid_skew F x0 g dt steps name Hv H1 ltac:(by right))
    as (before & Hb & _ & Hbp & _).
  destruct (solve_cuda_valid_skew F x0 g dt (steps + 1) name Hv H1 ltac:(by right))
    as (after & Ha & _ & Hap & _).
  destruct (Hbp i Hi) as ([x1 x2] & Hy & Hb1 & Hb2).
  destruct (Hap i Hi) as ([x1' x2'] & Hy' & Ha1 & Ha2).
  exists before, after, x1, x2, x1', x2'.
  repeat (split; [done|]).
  unfold skew_cells in Hy, Hy'. rewrite Hc, Hg1, Hg2 in Hy, Hy'.
  destruct (x0 !! i) as [a|]; [|done].
  destruct (x0 !! (i + length x0 / 2)%nat) as [b|]; [|done].
  simpl in Hy, Hy'.
  replace (Z.to_nat (steps + 1)) with (S (Z.to_nat steps)) in Hy' by lia.
  rewrite skew_loop_S_last, Hy in Hy'.
  change (skew_step (subscript h_methods name) c g_in_1 g_in_2 dt (x1, x2)
          = Some (x1', x2')) in Hy'.
  rewrite (skew_step_deref _ f) in Hy' by done. simpl in Hy'.
  by injection Hy' as <- <-.
Qed.

Lemma paired_update_is_sequential_witness :
  ∃ before after x1 x2 x1' x2',
    solve_cuda {| size0 := 2; size1 := 2;
                  data := [float_lit 1 0; float_lit 2 0; float_lit 3 0; float_lit 4 0] |}
      [float_lit 1 0; float_lit 5 0] [float_lit 1 0; float_lit 3 0]
      (float_lit 1 (-1)) 2 "Euler" = Some before
    ∧ solve_cuda {| size0 := 2; size1 := 2;
                  data := [float_lit 1 0; float_lit 2 0; float_lit 3 0; float_lit 4 0] |}
      [float_lit 1 0; float_lit 5 0] [float_lit 1 0; float_lit 3 0]
      (float_lit 1 (-1)) (2 + 1) "Euler" = Some after
    ∧ before !! 0%nat = Some x1 ∧ before !! (0 + 2 / 2)%nat = Some x2
    ∧ after !! 0%nat = Some x1' ∧ after !! (0 + 2 / 2)%nat = Some x2'
    ∧ x1' = x1 +f euler_method (float_lit 1 0) x1 (float_lit 1 0) (float_lit 1 (-1))
               +f euler_method (float_lit 2 0) x2 (float_lit 3 0) (float_lit 1 (-1))
    ∧ x2' = x1' +f euler_method (float_lit 3 0) x1' (float_lit 1 0) (float_lit 1 (-1))
                +f euler_method (float_lit 4 0) x2 (float_lit 3 0) (float_lit 1 (-1)).
Proof.
  apply (paired_update_is_sequential
           {| size0 := 2; size1 := 2;
              data := [float_lit 1 0; float_lit 2 0; float_lit 3 0; float_lit 4 0] |}
           [float_lit 1 0; float_lit 5 0] [float_lit 1 0; float_lit 3 0]
           (float_lit 1 (-1)) 2 "Euler" euler_method 0%nat
           (Coeffs (float_lit 1 0) (float_lit 2 0) (float_lit 3 0) (float_lit 4 0))
           (float_lit 1 0) (float_lit 3 0)).
  - valid_call_by_computation.
  - done.
  - lia.
  - done.
  - simpl. lia.
  - by vm_compute.
  - done.
  - done.
Defined.

(** ** Independence of the second elements of the pairs *)

Lemma skew_step_second_irrelevant method c g_in_1 g_in_2 dt x0_in_1 x0_in_2 x0_in_2' :
  skew_step method c g_in_1 g_in_2 dt (x0_in_1, x0_in_2)
  = skew_step method c g_in_1 g_in_2 dt (x0_in_1, x0_in_2').
Proof.
  unfold skew_step.
  rewrite (call_ignores_x0_in method (UR_v c) x0_in_2 x0_in_2').
  destruct (call method (UL_v c) x0_in_1 g_in_1 dt) as [a|]; [|done]. simpl.
  destruct (call method (UR_v c) x0_in_2' g_in_2 dt) as [b|]; [|done]. simpl.
  by rewrite (call_ignores_x0_in method (LR_v c) x0_in_2 x0_in_2').
Qed.

Lemma skew_cells_second_irrelevant cf method g dt steps x0 x0' (i : nat) :
  1 ≤ steps → length x0' = length x0 →
  (i < length x0 / 2)%nat → x0' !! i = x0 !! i →
  skew_cells cf method g dt steps x0' i = skew_cells cf method g dt steps x0 i.
Proof.
  intros Hs Hlen Hi Hx. unfold skew_cells. rewrite Hlen, Hx.
  assert (2 * (length x0 / 2) ≤ length x0)%nat as Hh by apply Nat.Div0.mul_div_le.
  destruct (lookup_lt_is_Some_2 x0 (i + length x0 / 2) ltac:(lia)) as [x2 ->].
  destruct (lookup_lt_is_Some_2 x0' (i + length x0 / 2) ltac:(lia)) as [x2' ->].
  destruct (x0 !! i) as [x1|]; [|done].
  destruct (g !! i) as [g1|]; [|done].
  destruct (g !! (i + length x0 / 2)%nat) as [g2|]; [|done].
  destruct (cf (Z.of_nat i)) as [c|]; [|done]. simpl.
  replace (Z.to_nat steps) with (S (Z.to_nat (steps - 1))) by lia.
  by rewrite !skew_loop_S, (skew_step_second_irrelevant _ _ _ _ _ _ x2' x2).
Qed.

(** C10, as the code has it.  In both paired kernels with at least one
    timestep, the returned state does not depend on the initial values of
    the second elements of the pairs, which are the elements
    [W/2 .. 2*(W/2) - 1]: two valid calls whose states have the same length
    and agree on every other element return the same state. *)
Theorem second_pair_elements_irrelevant F x0 x0' g dt steps name :
  valid_call F x0 g → size0 F ≠ 1 → 1 ≤ steps →
  name = "Euler" ∨ name = "RK4" →
  length x0' = length x0 →
  (∀ i, (i < length x0 / 2 ∨ 2 * (length x0 / 2) ≤ i)%nat → x0' !! i = x0 !! i) →
  solve_cuda F x0' g dt steps name = solve_cuda F x0 g dt steps name.
Proof.
  intros Hv H1 Hs Hname Hlen Hagree.
  assert (valid_call F x0' g) as Hv'
    by (unfold valid_call in *; by rewrite Hlen).
  pose proof (subscript_recognized name Hname) as Hm.
  destruct (solve_cuda_valid_skew F x0 g dt steps name Hv H1 ltac:(by right))
    as (out & -> & Hl & Hp & Hr).
  destruct (solve_cuda_valid_skew F x0' g dt steps name Hv' H1 ltac:(by right))
    as (out' & -> & Hl' & Hp' & Hr').
  rewrite Hlen in Hp', Hr'.
  set (h := (length x0 / 2)%nat) in *.
  assert (∀ j, (j < h)%nat →
            out' !! j = out !! j ∧ out' !! (j + h)%nat = out !! (j + h)%nat) as Hj.
  { intros j Hj. destruct (Hp j Hj) as (y & Hy & -> & ->).
    destruct (Hp' j Hj) as (y' & Hy' & -> & ->).
    rewrite (skew_cells_second_irrelevant _ _ _ _ _ x0 x0' j) in Hy'
      by (done || apply Hagree; by left).
    rewrite Hy in Hy'. by injection Hy' as ->. }
  f_equal. apply list_eq. intros i.
  destruct (decide (i < h)%nat) as [Hi|Hi]; [by apply Hj|].
  destruct (decide (i < 2 * h)%nat) as [Hi2|Hi2].
  - replace i with (i - h + h)%nat by lia. apply Hj. lia.
  - rewrite Hr, Hr' by lia. apply Hagree. right. lia.
Qed.

Lemma second_pair_elements_irrelevant_witness :
  solve_cuda {| size0 := 2; size1 := 2;
                data := [float_lit 1 0; float_lit 2 0; float_lit 3 0; float_lit 4 0] |}
    [float_lit 1 0; float_lit 9 0; float_lit 7 0]
    [float_lit 1 0; float_lit 3 0; float_lit 1 0] (float_lit 1 (-1)) 2 "RK4"
  = solve_cuda {| size0 := 2; size1 := 2;
                data := [float_lit 1 0; float_lit 2 0; float_lit 3 0; float_lit 4 0] |}
    [float_lit 1 0; float_lit 5 0; float_lit 7 0]
    [float_lit 1 0; float_lit 3 0; float_lit 1 0] (float_lit 1 (-1)) 2 "RK4".
Proof.
  apply second_pair_elements_irrelevant.
  - valid_call_by_computation.
  - done.
  - lia.
  - by right.
  - done.
  - intros [|[|[|i]]] Hi; simpl in Hi; first [done | lia].
Defined.

(** C10 fails on the code when the length is odd.  With [W = 3] the
    elements [W/2 .. W-1] are the elements 1 and 2; two states that differ
    in element 2 only give two different results, because no thread
    touches the last element. *)
Lemma odd_length_last_element_matters :
  let F := {| size0 := 2; size1 := 2;
              data := [float_lit 1 0; float_lit 2 0; float_lit 3 0; float_lit 4 0] |} in
  let g := [float_lit 1 0; float_lit 1 0; float_lit 1 0] in
  let dt := float_lit 1 (-1) in
  solve_cuda F [float_lit 1 0; float_lit 2 0; float_lit 3 0] g dt 1 "Euler"
  = Some [float_lit 5 (-1); float_lit 6 0; float_lit 3 0]
  ∧ solve_cuda F [float_lit 1 0; float_lit 2 0; float_lit 4 0] g dt 1 "Euler"
    = Some [float_lit 5 (-1); float_lit 6 0; float_lit 4 0]
  ∧ solve_cuda F [float_lit 1 0; float_lit 2 0; float_lit 3 0] g dt 1 "Euler"
    ≠ solve_cuda F [float_lit 1 0; float_lit 2 0; float_lit 4 0] g dt 1 "Euler".
Proof. repeat split; by vm_compute. Qed.

(** ** Coverage of the state by the grid *)

Lemma store_frame (a a' : list float) (i : Z) v (j : nat) :
  store a i v = Some a' → Z.of_nat j ≠ i → a' !! j = a !! j.
Proof.
  unfold store. case_decide; [|done]. intros [= <-] Hne.
  apply list_lookup_insert_ne. lia.
Qed.

(** A thread leaves alone every element that is not one of its own. *)
Lemma solver_body_frame k method F g dt steps x0_size tid s s' (j : nat) :
  solver_body k method F g dt steps x0_size tid s = Some s' →
  Z.of_nat j ∉ thread_cells k x0_size tid → s' !! j = s !! j.
Proof.
  assert (∀ (i : Z) l, Z.of_nat j ∉ i :: l → Z.of_nat j ≠ i) as Hhd
    by (intros i l Hn Heq; apply Hn; rewrite Heq, elem_of_cons; auto).
  assert (∀ (i : Z) l, Z.of_nat j ∉ i :: l → Z.of_nat j ∉ l) as Htl
    by (intros i l Hn Hin; apply Hn; rewrite elem_of_cons; auto).
  destruct k; simpl;
    unfold general_solver, compact_diagonal_solver,
      general_skew_symmetric_solver, compact_skew_symmetric_solver;
    case_decide; intros Hrun Hj; simplify_option_eq; try done.
  - eapply store_frame; [done|]. by eapply Hhd.
  - eapply store_frame; [done|]. by eapply Hhd.
  - etrans; [eapply store_frame; [done|]|eapply store_frame; [done|]].
    + eapply Hhd, Htl, Hj.
    + eapply Hhd, Hj.
  - etrans; [eapply store_frame; [done|]|eapply store_frame; [done|]].
    + eapply Hhd, Htl, Hj.
    + eapply Hhd, Hj.
Qed.

Lemma run_threads_frame kernel tids (j : nat) s out :
  (∀ tid s s', tid ∈ tids → kernel tid s = Some s' → s' !! j = s !! j) →
  run_threads kernel tids s = Some out → out !! j = s !! j.
Proof.
  revert out. induction tids as [|tid tids IH] using rev_ind; intros out Hk.
  - by intros [= <-].
  - rewrite run_threads_snoc.
    destruct (run_threads kernel tids s) as [s1|] eqn:Hs1; [|done]. simpl.
    intros Hout. etrans.
    + eapply Hk; [|done]. rewrite elem_of_app, list_elem_of_singleton. auto.
    + apply IH; [|done]. intros tid' s2 s2' Hin. apply Hk.
      rewrite elem_of_app. auto.
Qed.

(** An element that the launch does not cover comes back as it was. *)
Lemma not_covered_unchanged F x0 g dt steps name out (j : nat) :
  ¬ covered (solve_cuda_launch F x0 name) (Z.of_nat j) →
  solve_cuda F x0 g dt steps name = Some out → out !! j = x0 !! j.
Proof.
  intros Hnc. unfold solve_cuda, run_launch, launch.
  apply run_threads_frame. intros tid s s' Hin Hs'.
  eapply solver_body_frame; [done|]. intros Hcell. apply Hnc. by exists tid.
Qed.


(** ** The threads of a launch do not interfere

    The launch runs its threads in the order of the grid.  Every other
    order gives the same result: a thread reads and writes the state at
    its own elements only, and two threads have no element in common. *)

Lemma store_length (a a' : list float) i v :
  store a i v = Some a' → length a' = length a.
Proof. unfold store. case_decide; [|done]. intros [= <-]. apply length_insert. Qed.

Lemma solver_body_length k method F g dt steps x0_size tid s s' :
  solver_body k method F g dt steps x0_size tid s = Some s' →
  length s' = length s.
Proof.
  destruct k; simpl;
    unfold general_solver, compact_diagonal_solver,
      general_skew_symmetric_solver, compact_skew_symmetric_solver;
    case_decide; intros Hrun; simplify_option_eq; try done.
  - by eapply store_length.
  - by eapply store_length.
  - etrans; [by eapply store_length|]. by eapply store_length.
  - etrans; [by eapply store_length|]. by eapply store_length.
Qed.

Lemma thread_cells_disjoint k x0_size tid tid' i :
  0 ≤ tid → 0 ≤ tid' → tid ≠ tid' →
  i ∈ thread_cells k x0_size tid → i ∉ thread_cells k x0_size tid'.
Proof.
  intros Ht Ht' Hne. unfold thread_cells.
  destruct k; repeat case_decide;
    rewrite ?elem_of_cons, ?elem_of_nil; lia.
Qed.

(** Two states of the same length that agree at [i]. *)
Lemma load_agree (s1 s2 : list float) i :
  (∀ j : nat, Z.of_nat j = i → s1 !! j = s2 !! j) → load s1 i = load s2 i.
Proof. intros H. unfold load. case_decide; [|done]. apply H. lia. Qed.

Lemma store_agree (s1 s2 : list float) i v :
  length s1 = length s2 →
  (store s1 i v = None ∧ store s2 i v = None)
  ∨ ∃ a1 a2, store s1 i v = Some a1 ∧ store s2 i v = Some a2
             ∧ length a1 = length a2
             ∧ ∀ j : nat, Z.of_nat j = i ∨ s1 !! j = s2 !! j → a1 !! j = a2 !! j.
Proof.
  intros Hlen. unfold store. rewrite <- Hlen.
  case_decide as Hi; [right|by left].
  eexists _, _. split; [done|]. split; [done|].
  split; [by rewrite !length_insert|]. intros j Hj.
  destruct (decide (j = Z.to_nat i)) as [->|Hne].
  - by rewrite !list_lookup_insert_eq by lia.
  - rewrite !list_lookup_insert_ne by done. destruct Hj; [lia|done].
Qed.

(** What a thread does depends on the state at its own elements only. *)
Lemma solver_body_local k method F g dt steps x0_size tid s1 s2 :
  length s1 = length s2 →
  (∀ j : nat, Z.of_nat j ∈ thread_cells k x0_size tid → s1 !! j = s2 !! j) →
  (solver_body k method F g dt steps x0_size tid s1 = None
   ∧ solver_body k method F g dt steps x0_size tid s2 = None)
  ∨ ∃ a1 a2,
      solver_body k method F g dt steps x0_size tid s1 = Some a1
      ∧ solver_body k method F g dt steps x0_size tid s2 = Some a2
      ∧ ∀ j : nat, Z.of_nat j ∈ thread_cells k x0_size tid → a1 !! j = a2 !! j.
Proof.
  intros Hlen.
  assert (∀ (i : Z) (l : list Z),
            (∀ j : nat, Z.of_nat j ∈ i :: l → s1 !! j = s2 !! j) →
            load s1 i = load s2 i) as Hhd.
  { intros i l H. apply load_agree. intros j <-. apply H, list_elem_of_here. }
  destruct k; simpl;
    unfold general_solver, compact_diagonal_solver,
      general_skew_symmetric_solver, compact_skew_symmetric_solver;
    case_decide; intros Hs;
    try (right; eexists _, _; split; [done|]; split; [done|];
         intros j Hj; by apply elem_of_nil in Hj).
  - rewrite (Hhd _ _ Hs). destruct (load s2 tid); [|by left]. simpl.
    destruct (load g tid); [|by left]. simpl.
    destruct (load2 F tid tid); [|by left]. simpl.
    destruct (diagonal_loop _ _ _ _ _ _) as [y|]; [|by left]. simpl.
    destruct (store_agree s1 s2 tid y Hlen)
      as [[-> ->]|(a1 & a2 & -> & -> & _ & Ha)]; [by left|right].
    eexists _, _. split; [done|]. split; [done|]. intros j Hj. apply Ha.
    apply list_elem_of_singleton in Hj. by left.
  - rewrite (Hhd _ _ Hs). destruct (load s2 tid); [|by left]. simpl.
    destruct (load g tid); [|by left]. simpl.
    destruct (load2 F 0 0); [|by left]. simpl.
    destruct (diagonal_loop _ _ _ _ _ _) as [y|]; [|by left]. simpl.
    destruct (store_agree s1 s2 tid y Hlen)
      as [[-> ->]|(a1 & a2 & -> & -> & _ & Ha)]; [by left|right].
    eexists _, _. split; [done|]. split; [done|]. intros j Hj. apply Ha.
    apply list_elem_of_singleton in Hj. by left.
  - destruct (load g tid); [|by left]. simpl.
    destruct (load g (tid + x0_size `quot` 2)); [|by left]. simpl.
    rewrite (Hhd _ _ Hs). destruct (load s2 tid); [|by left]. simpl.
    rewrite (load_agree s1 s2 (tid + x0_size `quot` 2))
      by (intros j Hj; apply Hs; rewrite !elem_of_cons; auto).
    destruct (load s2 (tid + x0_size `quot` 2)); [|by left]. simpl.
    destruct (load2 F tid tid); [|by left]. simpl.
    destruct (load2 F tid (tid + x0_size `quot` 2)); [|by left]. simpl.
    destruct (load2 F (tid + x0_size `quot` 2) tid); [|by left]. simpl.
    destruct (load2 F (tid + x0_size `quot` 2) (tid + x0_size `quot` 2));
      [|by left]. simpl.
    destruct (skew_loop _ _ _ _ _ _ _) as [y|]; [|by left]. simpl.
    destruct (store_agree s1 s2 tid y.1 Hlen)
      as [[-> ->]|(a1 & a2 & -> & -> & Hlen' & Ha)]; [by left|]. simpl.
    destruct (store_agree a1 a2 (tid + x0_size `quot` 2) y.2 Hlen')
      as [[-> ->]|(b1 & b2 & -> & -> & _ & Hb)]; [by left|right].
    eexists _, _. split; [done|]. split; [done|]. intros j Hj. apply Hb.
    rewrite !elem_of_cons, elem_of_nil in Hj.
    destruct Hj as [Hj|[Hj|[]]]; [right; apply Ha; by left|by left].
  - destruct (load g tid); [|by left]. simpl.
    destruct (load g (tid + x0_size `quot` 2)); [|by left]. simpl.
    rewrite (Hhd _ _ Hs). destruct (load s2 tid); [|by left]. simpl.
    rewrite (load_agree s1 s2 (tid + x0_size `quot` 2))
      by (intros j Hj; apply Hs; rewrite !elem_of_cons; auto).
    destruct (load s2 (tid + x0_size `quot` 2)); [|by left]. simpl.
    destruct (load2 F 0 0); [|by left]. simpl.
    destruct (load2 F 0 1); [|by left]. simpl.
    destruct (load2 F 1 0); [|by left]. simpl.
    destruct (load2 F 1 1); [|by left]. simpl.
    destruct (skew_loop _ _ _ _ _ _ _) as [y|]; [|by left]. simpl.
    destruct (store_agree s1 s2 tid y.1 Hlen)
      as [[-> ->]|(a1 & a2 & -> & -> & Hlen' & Ha)]; [by left|]. simpl.
    destruct (store_agree a1 a2 (tid + x0_size `quot` 2) y.2 Hlen')
      as [[-> ->]|(b1 & b2 & -> & -> & _ & Hb)]; [by left|right].
    eexists _, _. split; [done|]. split; [done|]. intros j Hj. apply Hb.
    rewrite !elem_of_cons, elem_of_nil in Hj.
    destruct Hj as [Hj|[Hj|[]]]; [right; apply Ha; by left|by left].
Qed.

(** Two threads of different index can be run in either order. *)
Lemma solver_body_commute k method F g dt steps x0_size tid tid' s :
  0 ≤ tid → 0 ≤ tid' → tid ≠ tid' →
  solver_body k method F g dt steps x0_size tid s
    ≫= solver_body k method F g dt steps x0_size tid'
  = solver_body k method F g dt steps x0_size tid' s
    ≫= solver_body k method F g dt steps x0_size tid.
Proof.
  intros Ht Ht' Hne.
  set (K := solver_body k method F g dt steps x0_size).
  set (cells := thread_cells k x0_size).
  assert (∀ t a b j, K t a = Some b → Z.of_nat j ∉ cells t → b !! j = a !! j)
    as Hframe by (intros t a b j; apply solver_body_frame).
  assert (∀ t a b, K t a = Some b → length b = length a)
    as Hlength by (intros t a b; apply solver_body_length).
  assert (∀ t t' a b, 0 ≤ t → 0 ≤ t' → t ≠ t' → K t a = Some b →
            length a = length b
            ∧ ∀ j, Z.of_nat j ∈ cells t' → a !! j = b !! j) as Hother.
  { intros t t' a b H0 H0' Hn Hb. split; [symmetry; by eapply Hlength|].
    intros j Hj. symmetry. eapply Hframe; [done|].
    intros Hj'. by eapply (thread_cells_disjoint k x0_size t t'). }
  destruct (K tid s) as [a|] eqn:Ha; destruct (K tid' s) as [b|] eqn:Hb; simpl.
  - destruct (Hother tid tid' s a) as [Hl1 Hc1]; [done..|].
    destruct (Hother tid' tid s b) as [Hl2 Hc2]; [done..|].
    destruct (solver_body_local k method F g dt steps x0_size tid' s a Hl1 Hc1)
      as [[Hn _]|(b0 & a' & Hb0 & Ha' & Hagree')];
      [fold K in Hn; congruence|].
    destruct (solver_body_local k method F g dt steps x0_size tid s b Hl2 Hc2)
      as [[Hn _]|(a0 & b' & Ha0 & Hb' & Hagree)];
      [fold K in Hn; congruence|].
    fold K in Hb0, Ha', Ha0, Hb'. rewrite Ha', Hb'.
    assert (b0 = b) as -> by congruence. assert (a0 = a) as -> by congruence.
    f_equal. apply list_eq. intros j.
    destruct (decide (Z.of_nat j ∈ cells tid)) as [Hj|Hj].
    + rewrite <- (Hagree j Hj). eapply Hframe; [done|].
      by eapply (thread_cells_disjoint k x0_size tid tid').
    + rewrite (Hframe _ _ _ j Hb' Hj).
      destruct (decide (Z.of_nat j ∈ cells tid')) as [Hj'|Hj'].
      * symmetry. by apply Hagree'.
      * rewrite (Hframe _ _ _ j Ha' Hj'), (Hframe _ _ _ j Ha Hj).
        symmetry. by eapply Hframe.
  - destruct (Hother tid tid' s a) as [Hl1 Hc1]; [done..|].
    destruct (solver_body_local k method F g dt steps x0_size tid' s a Hl1 Hc1)
      as [[_ Hn]|(b0 & a' & Hb0 & _)]; [done|fold K in Hb0; congruence].
  - destruct (Hother tid' tid s b) as [Hl2 Hc2]; [done..|].
    destruct (solver_body_local k method F g dt steps x0_size tid s b Hl2 Hc2)
      as [[_ Hn]|(a0 & b' & Ha0 & _)]; [done|fold K in Ha0; congruence].
  - done.
Qed.

Lemma run_threads_cons kernel tid tids x0_a :
  run_threads kernel (tid :: tids) x0_a
  = kernel tid x0_a ≫= run_threads kernel tids.
Proof.
  unfold run_threads. simpl.
  destruct (kernel tid x0_a) as [s|]; [done|]. simpl.
  induction tids as [|t tids IH]; [done|]. simpl. apply IH.
Qed.

(** The result of a launch does not depend on the order in which its
    threads run. *)
Lemma launch_schedule_independent k method F g dt steps x0_size tids tids' x0 :
  tids ≡ₚ tids' → NoDup tids → Forall (λ tid, 0 ≤ tid) tids →
  run_threads (solver_body k method F g dt steps x0_size) tids x0
  = run_threads (solver_body k method F g dt steps x0_size) tids' x0.
Proof.
  set (K := solver_body k method F g dt steps x0_size).
  intros Hperm. revert x0.
  induction Hperm as [|t l l' Hperm IH|t t' l|l l' l'' Hp1 IH1 Hp2 IH2];
    intros x0 Hnd Hpos.
  - done.
  - rewrite !run_threads_cons. apply NoDup_cons in Hnd as [_ Hnd].
    apply Forall_cons in Hpos as [_ Hpos].
    destruct (K t x0) as [s|]; [|done]. simpl. by apply IH.
  - rewrite !run_threads_cons.
    apply NoDup_cons in Hnd as [Hnin _].
    apply Forall_cons in Hpos as [Ht' Hpos]. apply Forall_cons in Hpos as [Ht _].
    assert (t' ≠ t) as Hne by (intros ->; apply Hnin, list_elem_of_here).
    pose proof (solver_body_commute k method F g dt steps x0_size t' t x0
                  Ht' Ht Hne) as Hcomm. fold K in Hcomm.
    destruct (K t' x0) as [a|] eqn:Ha; destruct (K t x0) as [b|] eqn:Hb;
      simpl in *; rewrite ?run_threads_cons.
    + by rewrite Hcomm.
    + by rewrite Hcomm.
    + by rewrite <- Hcomm.
    + done.
  - rewrite IH1 by done. apply IH2.
    + by rewrite <- Hp1.
    + by rewrite <- Hp1.
Qed.

Lemma solve_cuda_schedule_independent F x0 g dt steps name tids :
  Z.of_nat (length x0) ≤ INT_MAX →
  tids ≡ₚ grid (l_blocks (solve_cuda_launch F x0 name))
            (l_threads (solve_cuda_launch F x0 name)) →
  run_threads
    (solver_body (l_solver (solve_cuda_launch F x0 name))
       (l_method (solve_cuda_launch F x0 name)) F g dt steps
       (l_x0_size (solve_cuda_launch F x0 name))) tids x0
  = solve_cuda F x0 g dt steps name.
Proof.
  intros Hfits Hperm. unfold solve_cuda, run_launch, launch.
  symmetry. apply launch_schedule_independent; [done| |]; simpl.
  - destruct (grid_solve (Z.of_nat (length x0)) ltac:(lia)) as (n & _ & ->).
    apply NoDup_seqZ.
  - destruct (grid_solve (Z.of_nat (length x0)) ltac:(lia)) as (n & _ & ->).
    apply Forall_seqZ. lia.
Qed.

(** ** What the state holds when the call returns *)

(** When every thread of the grid has finished, in whatever order, the
    state is the one [solve_cuda] stands for. *)
Lemma solve_cuda_at_return_all F x0 g dt steps name finished :
  Z.of_nat (length x0) ≤ INT_MAX →
  finished ≡ₚ grid (l_blocks (solve_cuda_launch F x0 name))
                (l_threads (solve_cuda_launch F x0 name)) →
  solve_cuda_at_return F x0 g dt steps name finished
  = solve_cuda F x0 g dt steps name.
Proof. apply solve_cuda_schedule_independent. Qed.







(** A partial result: with a 1x1 matrix and a state of three elements,
    when the threads 2 and 0 have finished and thread 1 has not, the
    state at the return of the call has the elements 0 and 2 advanced and
    element 1 as it was given. *)
Example state_at_return_partial :
  let F := {| size0 := 1; size1 := 1; data := [float_lit 2 0] |} in
  let x0 := [float_lit 1 0; float_lit 1 0; float_lit 1 0] in
  let g := [float_lit 1 0; float_lit 1 0; float_lit 1 0] in
  may_have_finished (solve_cuda_launch F x0 "Euler") [2; 0]
  ∧ solve_cuda_at_return F x0 g (float_lit 1 (-1)) 4 "Euler" [2; 0]
    = Some [float_lit 5 0; float_lit 1 0; float_lit 5 0]
  ∧ solve_cuda F x0 g (float_lit 1 (-1)) 4 "Euler"
    = Some [float_lit 5 0; float_lit 5 0; float_lit 5 0].
Proof.
  split; [|split; by vm_compute]. split.
  - apply NoDup_cons. split; [|apply NoDup_singleton].
    rewrite list_elem_of_singleton. lia.
  - intros tid Hin. unfold solve_cuda_launch. simpl.
    destruct (grid_solve (Z.of_nat 3) ltac:(unfold INT_MAX; lia)) as (n & Hn & ->).
    apply elem_of_seqZ.
    rewrite !elem_of_cons, elem_of_nil in Hin. lia.
Qed.

(** ** A zero coefficient matrix *)

Lemma fmul_zero_finite z a : is_zero z → is_finite a → is_zero (z *f a).
Proof.
  destruct z as [[sz|sz| |sz mz ez]], a as [[sa|sa| |sa ma ea]]; by cbv.
Qed.

Lemma euler_method_zero F_in x0_in g_in dt :
  is_zero F_in → is_finite g_in → is_finite dt →
  is_zero (euler_method F_in x0_in g_in dt).
Proof.
  intros HF Hg Hdt. unfold euler_method.
  by apply fmul_zero_finite; [apply fmul_zero_finite|].
Qed.

Lemma fadd_zero x z : is_zero z → same_value (x +f z) x.
Proof.
  destruct z as [[sz|sz| |sz mz ez]]; try by cbv.
  intros _. destruct x as [[sx|sx| |sx mx ex]].
  - right. by destruct sx, sz.
  - by left.
  - by left.
  - by left.
Qed.

Lemma same_value_trans a b c : same_value a b → same_value b c → same_value a c.
Proof. intros [->|[Ha Hb]] [->|[Hb' Hc]]; unfold same_value; auto. Qed.

Lemma diagonal_loop_zero c g_in dt n x0_in :
  is_zero c → is_finite g_in → is_finite dt →
  ∃ y, diagonal_loop p_euler_method c g_in dt n x0_in = Some y ∧ same_value y x0_in.
Proof.
  intros Hc Hg Hdt. revert x0_in. induction n as [|n IH]; intros x0_in.
  - exists x0_in. split; [done|by left].
  - destruct (IH (x0_in +f euler_method c x0_in g_in dt)) as (y & Hy & Hsame).
    exists y. split; [done|].
    eapply same_value_trans; [done|]. apply fadd_zero. by apply euler_method_zero.
Qed.

Lemma skew_loop_zero c g_in_1 g_in_2 dt n x :
  is_zero (UL_v c) → is_zero (UR_v c) → is_finite g_in_1 → is_finite g_in_2 →
  is_finite dt →
  ∃ y, skew_loop p_euler_method c g_in_1 g_in_2 dt n x = Some y ∧ same_value y.1 x.1.
Proof.
  intros HUL HUR Hg1 Hg2 Hdt. revert x. induction n as [|n IH]; intros [x1 x2].
  - exists (x1, x2). split; [done|by left].
  - rewrite skew_loop_S, (skew_step_deref _ euler_method) by done.
    cbv zeta. simpl (Some _ ≫= _).
    match goal with |- context [skew_loop _ _ _ _ _ n ?p] =>
      destruct (IH p) as (y & Hy & Hsame) end.
    exists y. split; [done|].
    eapply same_value_trans; [done|]. simpl.
    eapply same_value_trans; apply fadd_zero; by apply euler_method_zero.
Qed.

Lemma load_elem_of (a : list float) i v : load a i = Some v → v ∈ a.
Proof.
  unfold load. case_decide; [|done]. intros Hv.
  by eapply list_elem_of_lookup_2.
Qed.

Lemma solve_coeffs_zero F x0_size tid c :
  Forall is_zero (data F) → solve_coeffs F x0_size tid = Some c →
  is_zero (UL_v c) ∧ is_zero (UR_v c) ∧ is_zero (LL_v c) ∧ is_zero (LR_v c).
Proof.
  intros Hz Hc. rewrite Forall_forall in Hz.
  assert (compact_coeffs F = Some c ∨ general_coeffs F x0_size tid = Some c) as Hcase.
  { unfold solve_coeffs in Hc. destruct (size0 F) as [|[[]|[]|]|]; auto. }
  unfold compact_coeffs, general_coeffs, load2 in Hcase.
  destruct Hcase as [Hcase|Hcase]; simplify_option_eq;
    repeat split; eapply Hz, load_elem_of; done.
Qed.

(** With zero coefficients the last iteration leaves in the second element
    of a pair the value of the first. *)
Lemma skew_loop_zero_second c g_in_1 g_in_2 dt n x y :
  is_zero (LL_v c) → is_zero (LR_v c) → is_finite g_in_1 → is_finite g_in_2 →
  is_finite dt →
  skew_loop p_euler_method c g_in_1 g_in_2 dt (S n) x = Some y →
  same_value y.2 y.1.
Proof.
  intros HLL HLR Hg1 Hg2 Hdt. rewrite skew_loop_S_last.
  destruct (skew_loop p_euler_method c g_in_1 g_in_2 dt n x) as [[x1 x2]|];
    [|done].
  change (skew_step p_euler_method c g_in_1 g_in_2 dt (x1, x2) = Some y → same_value y.2 y.1).
  rewrite (skew_step_deref _ euler_method) by done. cbv zeta. intros [= <-]. simpl.
  eapply same_value_trans; apply fadd_zero; by apply euler_method_zero.
Qed.

(** C3, as the code has it.  With the method ["Euler"], a coefficient
    matrix whose entries are all zeros, finite scale entries and a finite
    [dt], a valid call returns with the same value, for every step count,
    every element of the state under the compact diagonal kernel and,
    under the paired kernels, the first element of every pair and the
    element that belongs to no pair. *)
Theorem zero_matrix_euler F x0 g dt steps :
  valid_call F x0 g →
  Forall is_zero (data F) → Forall is_finite g → is_finite dt →
  ∃ out,
    solve_cuda F x0 g dt steps "Euler" = Some out
    ∧ length out = length x0
    ∧ ∀ i x, x0 !! i = Some x →
        size0 F = 1 ∨ (i < length x0 / 2)%nat ∨ (2 * (length x0 / 2) ≤ i)%nat →
        ∃ y, out !! i = Some y ∧ same_value y x.
Proof.
  intros Hv HzF Hfg Hfdt.
  assert (subscript h_methods "Euler" = p_euler_method) as Hm by done.
  assert (loop_defined (subscript h_methods "Euler") steps) as Hloop
    by (right; by rewrite Hm).
  rewrite Forall_forall in Hfg.
  destruct (decide (size0 F = 1)) as [H1|H1].
  - destruct (recognized_shape_1 F (length x0) (proj1 Hv) H1) as [c Hc].
    destruct (solve_cuda_valid_diagonal F x0 g dt steps "Euler" c Hv H1 Hc Hloop)
      as (out & Hrun & Hlen & Hout).
    exists out. split; [done|]. split; [done|]. intros i x Hx _.
    pose proof (lookup_lt_Some _ _ _ Hx) as Hi.
    rewrite Hout by done. unfold diagonal_cell. rewrite Hx, Hm.
    destruct Hv as (_ & Hg & _).
    destruct (lookup_lt_is_Some_2 g i ltac:(lia)) as [gi Hgi]. rewrite Hgi. simpl.
    apply diagonal_loop_zero; [|by eapply Hfg, list_elem_of_lookup_2|done].
    rewrite Forall_forall in HzF. by eapply HzF, load_elem_of.
  - destruct (solve_cuda_valid_skew F x0 g dt steps "Euler" Hv H1 Hloop)
      as (out & Hrun & Hlen & Hpair & Hrest).
    exists out. split; [done|]. split; [done|]. intros i x Hx [?|[Hi|Hi]]; [done| |].
    + destruct (Hpair i Hi) as (y & Hy & Hy1 & _).
      exists y.1. split; [done|].
      unfold skew_cells in Hy. rewrite Hx, Hm in Hy.
      destruct (x0 !! (i + length x0 / 2)%nat) as [x2|]; [|done].
      destruct (g !! i) as [g1|] eqn:Hg1; [|done].
      destruct (g !! (i + length x0 / 2)%nat) as [g2|] eqn:Hg2; [|done].
      destruct (solve_coeffs _ _ _) as [c|] eqn:Hc; [|done].
      simpl in Hy.
      destruct (solve_coeffs_zero _ _ _ _ HzF Hc) as (HUL & HUR & _).
      destruct (skew_loop_zero c g1 g2 dt (Z.to_nat steps) (x, x2))
        as (y' & Hy' & Hsame);
        [done|done|by eapply Hfg, list_elem_of_lookup_2
        |by eapply Hfg, list_elem_of_lookup_2|done|].
      rewrite Hy in Hy'. by injection Hy' as <-.
    + exists x. split; [by rewrite Hrest|by left].
Qed.

Lemma zero_matrix_euler_witness :
  ∃ out,
    solve_cuda {| size0 := 1; size1 := 1; data := [float_lit 0 0] |}
      [float_lit 1 0; float_lit 5 0] [float_lit 3 0; float_lit 7 0]
      (float_lit 1 (-1)) 4 "Euler" = Some out
    ∧ length out = 2%nat
    ∧ ∀ i x, [float_lit 1 0; float_lit 5 0] !! i = Some x →
        1 = 1 ∨ (i < 2 / 2)%nat ∨ (2 * (2 / 2) ≤ i)%nat →
        ∃ y, out !! i = Some y ∧ same_value y x.
Proof.
  apply (zero_matrix_euler
           {| size0 := 1; size1 := 1; data := [float_lit 0 0] |}
           [float_lit 1 0; float_lit 5 0] [float_lit 3 0; float_lit 7 0]
           (float_lit 1 (-1)) 4).
  - valid_call_by_computation.
  - repeat constructor.
  - repeat constructor.
  - done.
Defined.

(** C3 fails on the code.  With an all-zero 2x2 matrix, one Euler step
    on the state [1; 5] returns [1; 1]: the second element of the pair is
    computed from the first.  With an all-zero 1x1 matrix and an infinite
    scale entry, one Euler step on the state [1] returns a NaN. *)
Lemma zero_matrix_changes_state :
  let zero := float_lit 0 0 in
  let one := float_lit 1 0 in
  solve_cuda {| size0 := 2; size1 := 2; data := [zero; zero; zero; zero] |}
    [one; float_lit 5 0] [one; one] (float_lit 1 (-1)) 1 "Euler"
  = Some [one; one]
  ∧ solve_cuda {| size0 := 1; size1 := 1; data := [zero] |}
      [one] [Float (S754_infinity false)] (float_lit 1 (-1)) 1 "Euler"
    = Some [Float S754_nan]
  ∧ ¬ same_value one (float_lit 5 0)
  ∧ ¬ same_value (Float S754_nan) one.
Proof.
  repeat split; try by vm_compute.
  - intros [H|[H _]]; by vm_compute in H.
  - intros [H|[H _]]; by vm_compute in H.
Qed.

(** What the paired kernels do to the second elements under a zero
    matrix: after at least one Euler step, the second element of every
    pair holds the value of the first. *)
Lemma zero_matrix_euler_second_elements F x0 g dt steps :
  valid_call F x0 g → size0 F ≠ 1 → 1 ≤ steps →
  Forall is_zero (data F) → Forall is_finite g → is_finite dt →
  ∃ out,
    solve_cuda F x0 g dt steps "Euler" = Some out
    ∧ ∀ i, (i < length x0 / 2)%nat →
        ∃ y1 y2, out !! i = Some y1 ∧ out !! (i + length x0 / 2)%nat = Some y2
                 ∧ same_value y2 y1.
Proof.
  intros Hv H1 Hs HzF Hfg Hfdt.
  assert (subscript h_methods "Euler" = p_euler_method) as Hm by done.
  assert (loop_defined (subscript h_methods "Euler") steps) as Hloop
    by (right; by rewrite Hm).
  rewrite Forall_forall in Hfg.
  destruct (solve_cuda_valid_skew F x0 g dt steps "Euler" Hv H1 Hloop)
    as (out & Hrun & _ & Hpair & _).
  exists out. split; [done|]. intros i Hi.
  destruct (Hpair i Hi) as (y & Hy & Hy1 & Hy2).
  exists y.1, y.2. split; [done|]. split; [done|].
  unfold skew_cells in Hy. rewrite Hm in Hy.
  destruct (x0 !! i) as [x1|]; [|done].
  destruct (x0 !! (i + length x0 / 2)%nat) as [x2|]; [|done].
  destruct (g !! i) as [g1|] eqn:Hg1; [|done].
  destruct (g !! (i + length x0 / 2)%nat) as [g2|] eqn:Hg2; [|done].
  destruct (solve_coeffs _ _ _) as [c|] eqn:Hc; [|done].
  simpl in Hy.
  destruct (solve_coeffs_zero _ _ _ _ HzF Hc) as (_ & _ & HLL & HLR).
  replace (Z.to_nat steps) with (S (Z.to_nat (steps - 1))) in Hy by lia.
  eapply skew_loop_zero_second; [done|done| | |done|done];
    by eapply Hfg, list_elem_of_lookup_2.
Qed.

(** * Further properties of the kernels and of the entry point *)

(** ** Loops and step counts *)

Lemma diagonal_loop_add method F_in g_in dt n m x0_in :
  diagonal_loop method F_in g_in dt (n + m) x0_in
  = diagonal_loop method F_in g_in dt n x0_in
    ≫= diagonal_loop method F_in g_in dt m.
Proof.
  revert x0_in. induction n as [|n IH]; intros x0_in; [done|]. simpl.
  destruct (call method F_in x0_in g_in dt) as [inc|]; [|done]. apply IH.
Qed.

Lemma skew_loop_add method c g_in_1 g_in_2 dt n m x :
  skew_loop method c g_in_1 g_in_2 dt (n + m) x
  = skew_loop method c g_in_1 g_in_2 dt n x
    ≫= skew_loop method c g_in_1 g_in_2 dt m.
Proof.
  revert x. induction n as [|n IH]; intros x; [done|].
  change (S n + m)%nat with (S (n + m)). rewrite !skew_loop_S.
  destruct (skew_step method c g_in_1 g_in_2 dt x) as [x'|]; [|done]. apply IH.
Qed.

(** A pointer that is not null points to a method that does not read its
    second argument. *)
Lemma deref_ignores_x0_in method f F_in x0_in x0_in' g_in dt :
  deref method = Some f → f F_in x0_in g_in dt = f F_in x0_in' g_in dt.
Proof. destruct method; intros [= <-]; done. Qed.

Lemma diagonal_loop_iter method f F_in g_in dt n x0_in v :
  deref method = Some f →
  diagonal_loop method F_in g_in dt n x0_in
  = Some (Nat.iter n (λ x, x +f f F_in v g_in dt) x0_in).
Proof.
  intros Hf. revert x0_in. induction n as [|n IH]; intros x0_in; [done|].
  rewrite Nat.iter_succ_r, <- IH. simpl diagonal_loop.
  rewrite (call_deref _ f) by done.
  by rewrite (deref_ignores_x0_in method f F_in x0_in v).
Qed.

Lemma skew_loop_iter method f c g_in_1 g_in_2 dt n x0_in_1 x0_in_2 v :
  deref method = Some f →
  skew_loop method c g_in_1 g_in_2 dt (S n) (x0_in_1, x0_in_2)
  = let x1 := Nat.iter (S n)
                (λ x, x +f f (UL_v c) v g_in_1 dt +f f (UR_v c) v g_in_2 dt)
                x0_in_1 in
    Some (x1, x1 +f f (LL_v c) v g_in_1 dt +f f (LR_v c) v g_in_2 dt).
Proof.
  intros Hf. cbv zeta. revert x0_in_1 x0_in_2.
  induction n as [|n IH]; intros x0_in_1 x0_in_2.
  - rewrite skew_loop_S, (skew_step_deref _ f) by done. cbv zeta. simpl.
    rewrite (deref_ignores_x0_in method f (UL_v c) x0_in_1 v),
      (deref_ignores_x0_in method f (UR_v c) x0_in_2 v),
      (deref_ignores_x0_in method f (LR_v c) x0_in_2 v) by done.
    by rewrite (deref_ignores_x0_in method f (LL_v c) _ v) by done.
  - rewrite (Nat.iter_succ_r (S n)).
    rewrite (skew_loop_S _ _ _ _ _ (S n)), (skew_step_deref _ f) by done.
    cbv zeta.
    rewrite (deref_ignores_x0_in method f (UL_v c) x0_in_1 v),
      (deref_ignores_x0_in method f (UR_v c) x0_in_2 v) by done.
    etrans; [apply IH|done].
Qed.

Lemma valid_call_length F x0 x1 g :
  valid_call F x0 g → length x1 = length x0 → valid_call F x1 g.
Proof. intros Hv Hlen. unfold valid_call in *. by rewrite Hlen. Qed.

(** X1. Calls compose: on a valid call with a recognized method,
    integrating [a] timesteps and then [b] timesteps from the returned
    state gives the state that one call with [a + b] timesteps returns. *)
Theorem solve_cuda_steps_compose F x0 g dt a b name :
  valid_call F x0 g → name = "Euler" ∨ name = "RK4" → 0 ≤ a → 0 ≤ b →
  solve_cuda F x0 g dt (a + b) name
  = solve_cuda F x0 g dt a name ≫= λ x1, solve_cuda F x1 g dt b name.
Proof.
  intros Hv Hname Ha Hb.
  pose proof (subscript_recognized name Hname) as Hm.
  assert (∀ s, loop_defined (subscript h_methods name) s) as Hloop by by right.
  destruct (decide (size0 F = 1)) as [H1|H1].
  - destruct (recognized_shape_1 F (length x0) (proj1 Hv) H1) as [c Hc].
    destruct (solve_cuda_valid_diagonal F x0 g dt a name c Hv H1 Hc (Hloop a))
      as (xa & -> & Hla & Hxa).
    destruct (solve_cuda_valid_diagonal F x0 g dt (a + b) name c Hv H1 Hc
                (Hloop (a + b))) as (xab & -> & Hlab & Hxab).
    pose proof (valid_call_length F x0 xa g Hv Hla) as Hva.
    destruct (solve_cuda_valid_diagonal F xa g dt b name c Hva H1 Hc (Hloop b))
      as (xb & Hrb & Hlb & Hxb).
    simpl. rewrite Hrb. f_equal. apply list_eq. intros i.
    destruct (decide (i < length x0)%nat) as [Hi|Hi].
    + rewrite Hxab, Hxb by lia. unfold diagonal_cell. rewrite Hxa by lia.
      unfold diagonal_cell.
      replace (Z.to_nat (a + b)) with (Z.to_nat a + Z.to_nat b)%nat by lia.
      destruct (x0 !! i) as [x|]; [|done]. simpl.
      destruct (g !! i) as [gi|]; [|done]. simpl.
      rewrite diagonal_loop_add.
      by destruct (diagonal_loop _ c gi dt (Z.to_nat a) x).
    + by rewrite !lookup_ge_None_2 by lia.
  - destruct (solve_cuda_valid_skew F x0 g dt a name Hv H1 (Hloop a))
      as (xa & -> & Hla & Hpa & Hra).
    destruct (solve_cuda_valid_skew F x0 g dt (a + b) name Hv H1 (Hloop (a + b)))
      as (xab & -> & Hlab & Hpab & Hrab).
    pose proof (valid_call_length F x0 xa g Hv Hla) as Hva.
    destruct (solve_cuda_valid_skew F xa g dt b name Hva H1 (Hloop b))
      as (xb & Hrb & Hlb & Hpb & Hrrb).
    simpl. rewrite Hrb. f_equal. rewrite Hla in Hpb, Hrrb.
    set (h := (length x0 / 2)%nat) in *.
    assert (∀ j, (j < h)%nat →
              xab !! j = xb !! j ∧ xab !! (j + h)%nat = xb !! (j + h)%nat) as Hj.
    { intros j Hj. destruct (Hpab j Hj) as (yab & Hyab & -> & ->).
      destruct (Hpa j Hj) as (ya & Hya & Hya1 & Hya2).
      destruct (Hpb j Hj) as (yb & Hyb & -> & ->).
      unfold skew_cells in Hyab, Hya, Hyb. rewrite Hla in Hyb.
      fold h in Hyab, Hya, Hyb. rewrite Hya1, Hya2 in Hyb.
      destruct (x0 !! j) as [x1|]; [|done].
      destruct (x0 !! (j + h)%nat) as [x2|]; [|done].
      destruct (g !! j) as [g1|]; [|done].
      destruct (g !! (j + h)%nat) as [g2|]; [|done].
      destruct (solve_coeffs _ _ _) as [c|]; [|done].
      simpl in Hyab, Hya, Hyb.
      replace (Z.to_nat (a + b)) with (Z.to_nat a + Z.to_nat b)%nat in Hyab by lia.
      rewrite skew_loop_add, Hya in Hyab. simpl in Hyab.
      destruct ya as [ya1 ya2]. simpl in Hyb.
      rewrite Hyb in Hyab. by injection Hyab as <-. }
    apply list_eq. intros i.
    destruct (decide (i < h)%nat) as [Hi|Hi]; [by apply Hj|].
    destruct (decide (i < 2 * h)%nat) as [Hi2|Hi2].
    + replace i with (i - h + h)%nat by lia. apply Hj. lia.
    + by rewrite Hrab, Hrrb, Hra by lia.
Qed.

Lemma solve_cuda_steps_compose_witness :
  solve_cuda {| size0 := 2; size1 := 2;
                data := [float_lit 1 0; float_lit 2 0; float_lit 3 0; float_lit 4 0] |}
    [float_lit 1 0; float_lit 5 0; float_lit 7 0]
    [float_lit 1 0; float_lit 3 0; float_lit 1 0] (float_lit 1 (-1)) (2 + 3) "RK4"
  = solve_cuda {| size0 := 2; size1 := 2;
                  data := [float_lit 1 0; float_lit 2 0; float_lit 3 0; float_lit 4 0] |}
      [float_lit 1 0; float_lit 5 0; float_lit 7 0]
      [float_lit 1 0; float_lit 3 0; float_lit 1 0] (float_lit 1 (-1)) 2 "RK4"
    ≫= λ x1,
      solve_cuda {| size0 := 2; size1 := 2;
                    data := [float_lit 1 0; float_lit 2 0; float_lit 3 0; float_lit 4 0] |}
        x1 [float_lit 1 0; float_lit 3 0; float_lit 1 0] (float_lit 1 (-1)) 3 "RK4".
Proof.
  apply solve_cuda_steps_compose;
    [valid_call_by_computation | by right | lia | lia].
Defined.

(** ** Closed forms *)

(** X2. Under the compact diagonal kernel every element evolves on its
    own: with a recognized method [f], element [i] of the returned state
    is its initial value to which the same increment [f c _ g_i dt], which
    depends on no state, has been added [steps] times. *)
Theorem compact_diagonal_closed_form F x0 g dt steps name f c (i : nat) x g_in v :
  valid_call F x0 g → size0 F = 1 →
  deref (subscript h_methods name) = Some f →
  load2 F 0 0 = Some c → x0 !! i = Some x → g !! i = Some g_in →
  ∃ out,
    solve_cuda F x0 g dt steps name = Some out
    ∧ out !! i = Some (Nat.iter (Z.to_nat steps) (λ y, y +f f c v g_in dt) x).
Proof.
  intros Hv H1 Hf Hc Hx Hg.
  assert (subscript h_methods name ≠ nullptr) as Hm
    by (intros Hn; by rewrite Hn in Hf).
  destruct (solve_cuda_valid_diagonal F x0 g dt steps name c Hv H1 Hc
              ltac:(by right)) as (out & Hrun & _ & Hout).
  exists out. split; [done|].
  rewrite Hout by (by eapply lookup_lt_Some). unfold diagonal_cell.
  rewrite Hx, Hg. simpl. by apply diagonal_loop_iter.
Qed.

Lemma compact_diagonal_closed_form_witness :
  ∃ out,
    solve_cuda {| size0 := 1; size1 := 1; data := [float_lit 2 0] |}
      [float_lit 1 0; float_lit 5 0] [float_lit 3 0; float_lit 7 0]
      (float_lit 1 (-1)) 4 "RK4" = Some out
    ∧ out !! 1%nat
      = Some (Nat.iter (Z.to_nat 4)
                (λ y, y +f rk4_method (float_lit 2 0) (float_lit 0 0)
                             (float_lit 7 0) (float_lit 1 (-1)))
                (float_lit 5 0)).
Proof.
  apply (compact_diagonal_closed_form
           {| size0 := 1; size1 := 1; data := [float_lit 2 0] |}
           [float_lit 1 0; float_lit 5 0] [float_lit 3 0; float_lit 7 0]
           (float_lit 1 (-1)) 4 "RK4" rk4_method (float_lit 2 0) 1%nat
           (float_lit 5 0) (float_lit 7 0) (float_lit 0 0));
    [valid_call_by_computation | done..].
Defined.

(** X3. Under the paired kernels with a recognized method [f] and at
    least one timestep, the first element of a pair is its initial value
    to which the same two increments have been added [steps] times,
    whatever the second element was, and the second element is the final
    first element plus the two increments of the lower row: the state of
    the second element never enters the result. *)
Theorem paired_closed_form F x0 g dt steps name f c (i : nat) x g_in_1 g_in_2 v :
  valid_call F x0 g → size0 F ≠ 1 → 1 ≤ steps →
  deref (subscript h_methods name) = Some f →
  (i < length x0 / 2)%nat →
  solve_coeffs F (Z.of_nat (length x0)) (Z.of_nat i) = Some c →
  x0 !! i = Some x →
  g !! i = Some g_in_1 → g !! (i + length x0 / 2)%nat = Some g_in_2 →
  ∃ out x1,
    solve_cuda F x0 g dt steps name = Some out
    ∧ x1 = Nat.iter (Z.to_nat steps)
             (λ y, y +f f (UL_v c) v g_in_1 dt +f f (UR_v c) v g_in_2 dt) x
    ∧ out !! i = Some x1
    ∧ out !! (i + length x0 / 2)%nat
      = Some (x1 +f f (LL_v c) v g_in_1 dt +f f (LR_v c) v g_in_2 dt).
Proof.
  intros Hv H1 Hs Hf Hi Hc Hx Hg1 Hg2.
  assert (subscript h_methods name ≠ nullptr) as Hm
    by (intros Hn; by rewrite Hn in Hf).
  destruct (solve_cuda_valid_skew F x0 g dt steps name Hv H1 ltac:(by right))
    as (out & Hrun & _ & Hpair & _).
  destruct (Hpair i Hi) as (y & Hy & Hy1 & Hy2).
  unfold skew_cells in Hy. rewrite Hx, Hg1, Hg2, Hc in Hy.
  destruct (x0 !! (i + length x0 / 2)%nat) as [x2|]; [|done]. simpl in Hy.
  replace (Z.to_nat steps) with (S (Z.to_nat (steps - 1))) in * by lia.
  rewrite (skew_loop_iter _ f _ _ _ _ _ _ _ v) in Hy by done.
  cbv zeta in Hy. injection Hy as <-.
  eexists out, _. split; [done|]. split; [done|]. by split.
Qed.

Lemma paired_closed_form_witness :
  ∃ out x1,
    solve_cuda {| size0 := 2; size1 := 2;
                  data := [float_lit 1 0; float_lit 2 0; float_lit 3 0; float_lit 4 0] |}
      [float_lit 1 0; float_lit 5 0] [float_lit 1 0; float_lit 3 0]
      (float_lit 1 (-1)) 2 "Euler" = Some out
    ∧ x1 = Nat.iter (Z.to_nat 2)
             (λ y, y +f euler_method (float_lit 1 0) (float_lit 0 0) (float_lit 1 0)
                          (float_lit 1 (-1))
                     +f euler_method (float_lit 2 0) (float_lit 0 0) (float_lit 3 0)
                          (float_lit 1 (-1)))
             (float_lit 1 0)
    ∧ out !! 0%nat = Some x1
    ∧ out !! (0 + 2 / 2)%nat
      = Some (x1 +f euler_method (float_lit 3 0) (float_lit 0 0) (float_lit 1 0)
                      (float_lit 1 (-1))
                 +f euler_method (float_lit 4 0) (float_lit 0 0) (float_lit 3 0)
                      (float_lit 1 (-1))).
Proof.
  apply (paired_closed_form
           {| size0 := 2; size1 := 2;
              data := [float_lit 1 0; float_lit 2 0; float_lit 3 0; float_lit 4 0] |}
           [float_lit 1 0; float_lit 5 0] [float_lit 1 0; float_lit 3 0]
           (float_lit 1 (-1)) 2 "Euler" euler_method
           (Coeffs (float_lit 1 0) (float_lit 2 0) (float_lit 3 0) (float_lit 4 0))
           0%nat (float_lit 1 0) (float_lit 1 0) (float_lit 3 0) (float_lit 0 0));
    [valid_call_by_computation | done | lia | done | simpl; lia
    | by vm_compute | done | done | done].
Defined.

(** ** Undefined launches *)

Lemma run_threads_None kernel tids tid x0_a :
  tid ∈ tids → (∀ s, kernel tid s = None) → run_threads kernel tids x0_a = None.
Proof.
  intros Hin Hnone. revert x0_a.
  induction tids as [|t tids IH]; intros x0_a.
  - by apply elem_of_nil in Hin.
  - rewrite run_threads_cons. apply elem_of_cons in Hin as [<-|Hin].
    + by rewrite Hnone.
    + destruct (kernel t x0_a) as [s|]; [|done]. simpl. by apply IH.
Qed.

(** The launch of [solve_cuda] is undefined as soon as one thread below
    the length of the state is undefined on every state. *)
Lemma solve_cuda_None F x0 g dt steps name (k : nat) :
  Z.of_nat (length x0) ≤ INT_MAX → (k < length x0)%nat →
  (∀ s, solver_body (select_solver (size0 F)) (subscript h_methods name) F g dt
          steps (Z.of_nat (length x0)) (Z.of_nat k) s = None) →
  solve_cuda F x0 g dt steps name = None.
Proof.
  intros Hfits Hk Hnone. unfold solve_cuda, run_launch, solve_cuda_launch, launch.
  simpl. destruct (grid_solve (Z.of_nat (length x0)) ltac:(lia)) as (n & Hn & ->).
  rewrite int_id by (unfold INT_MAX in Hfits; lia).
  apply (run_threads_None _ _ (Z.of_nat k)); [|done].
  apply elem_of_seqZ. lia.
Qed.

Lemma select_solver_cases F_size :
  (F_size = 1 ∧ select_solver F_size = k_compact_diagonal_solver)
  ∨ (F_size = 2 ∧ select_solver F_size = k_compact_skew_symmetric_solver)
  ∨ (F_size ≠ 1 ∧ F_size ≠ 2
     ∧ select_solver F_size = k_general_skew_symmetric_solver).
Proof. unfold select_solver. destruct F_size as [|[[]|[]|]|]; naive_solver. Qed.

Lemma diagonal_loop_nullptr F_in g_in dt n x0_in :
  diagonal_loop nullptr F_in g_in dt (S n) x0_in = None.
Proof. done. Qed.

Lemma skew_loop_nullptr c g_in_1 g_in_2 dt n x :
  skew_loop nullptr c g_in_1 g_in_2 dt (S n) x = None.
Proof. by destruct x. Qed.

(** X4. An unrecognized method name makes the call undefined as soon as
    one thread has a timestep to make: with at least one timestep and a
    state of at least one element (two under the paired kernels), the
    first thread calls through the null method pointer. *)
Theorem unrecognized_method_undefined F x0 g dt steps name :
  name ≠ "Euler" → name ≠ "RK4" → 1 ≤ steps →
  Z.of_nat (length x0) ≤ INT_MAX →
  (size0 F = 1 ∧ (1 ≤ length x0)%nat) ∨ (size0 F ≠ 1 ∧ (2 ≤ length x0)%nat) →
  solve_cuda F x0 g dt steps name = None.
Proof.
  intros HE HR Hs Hfits Hcase.
  assert (2 ≤ length x0 → 0 < length x0 / 2)%nat as Hh.
  { intros H2. apply Nat.div_str_pos. lia. }
  apply (solve_cuda_None _ _ _ _ _ _ 0%nat); [done|lia|]. intros s.
  rewrite subscript_unrecognized by done.
  replace (Z.to_nat steps) with (S (Z.to_nat (steps - 1))) by lia.
  destruct (select_solver_cases (size0 F)) as [[H1 ->]|[[H2 ->]|(H1 & H2 & ->)]];
    simpl; unfold compact_diagonal_solver, compact_skew_symmetric_solver,
             general_skew_symmetric_solver;
    rewrite ?quot_2_nat;
    (rewrite decide_True by (destruct Hcase as [[? ?]|[? ?]]; lia)).
  - destruct (load s _); [|done]. simpl. destruct (load g _); [|done]. simpl.
    destruct (load2 F 0 0); [|done]. simpl.
    by replace (Z.to_nat steps) with (S (Z.to_nat (steps - 1))) by lia.
  - repeat (match goal with
            | |- context [load ?a ?j ≫= _] => destruct (load a j); [|done]; simpl
            | |- context [load2 ?a ?j ?l ≫= _] =>
                destruct (load2 a j l); [|done]; simpl
            end).
    replace (Z.to_nat steps) with (S (Z.to_nat (steps - 1))) by lia.
    by rewrite skew_loop_nullptr.
  - repeat (match goal with
            | |- context [load ?a ?j ≫= _] => destruct (load a j); [|done]; simpl
            | |- context [load2 ?a ?j ?l ≫= _] =>
                destruct (load2 a j l); [|done]; simpl
            end).
    replace (Z.to_nat steps) with (S (Z.to_nat (steps - 1))) by lia.
    by rewrite skew_loop_nullptr.
Qed.

Lemma unrecognized_method_undefined_witness :
  solve_cuda {| size0 := 1; size1 := 1; data := [float_lit 2 0] |}
    [float_lit 1 0; float_lit 1 0] [float_lit 1 0; float_lit 1 0]
    (float_lit 1 (-1)) 3 "Heun" = None.
Proof.
  apply unrecognized_method_undefined; [done|done|lia|by vm_compute|].
  left. split; [done|simpl; lia].
Defined.

Lemma load_ge (a : list float) (i : Z) : Z.of_nat (length a) ≤ i → load a i = None.
Proof.
  intros Hi. unfold load. case_decide; [|done]. apply lookup_ge_None_2. lia.
Qed.

(** X5. A scale vector shorter than the part of the state that the
    threads own is not rejected either: the thread that needs the first
    missing entry reads outside the scale vector and the call is
    undefined.  The threads own the whole state under the compact diagonal
    kernel and its first [2 * (W/2)] elements under the paired kernels. *)
Theorem short_scale_vector_undefined F x0 g dt steps name :
  Z.of_nat (length x0) ≤ INT_MAX →
  (size0 F = 1 ∧ (length g < length x0)%nat)
  ∨ (size0 F ≠ 1 ∧ (length g < 2 * (length x0 / 2))%nat) →
  solve_cuda F x0 g dt steps name = None.
Proof.
  intros Hfits Hcase.
  assert (2 * (length x0 / 2) ≤ length x0)%nat as Hh by apply Nat.Div0.mul_div_le.
  destruct Hcase as [[H1 Hg]|[H1 Hg]].
  - apply (solve_cuda_None _ _ _ _ _ _ (length g)); [done|done|]. intros s.
    rewrite H1. simpl. unfold compact_diagonal_solver.
    rewrite decide_True by lia.
    destruct (load s _); [|done]. simpl. by rewrite load_ge.
  - apply (solve_cuda_None _ _ _ _ _ _ (length x0 / 2 - 1)); [done|lia|].
    intros s.
    assert (load g (Z.of_nat (length x0 / 2 - 1) + Z.of_nat (length x0 / 2)) = None)
      as Hg2 by (apply load_ge; lia).
    destruct (select_solver_cases (size0 F)) as [[? _]|[[_ ->]|(_ & _ & ->)]];
      [done| |];
      cbv beta iota delta [solver_body compact_skew_symmetric_solver
                             general_skew_symmetric_solver];
      rewrite quot_2_nat, decide_True by lia;
      (destruct (load g (Z.of_nat (length x0 / 2 - 1))); [|done]);
      by rewrite Hg2.
Qed.

Lemma short_scale_vector_undefined_witness :
  solve_cuda {| size0 := 1; size1 := 1; data := [float_lit 2 0] |}
    [float_lit 1 0; float_lit 1 0] [float_lit 1 0] (float_lit 1 (-1)) 1 "Euler"
  = None.
Proof.
  apply short_scale_vector_undefined; [by vm_compute|].
  left. split; [done|simpl; lia].
Defined.

(** X6. The shape of the coefficient matrix is not validated.  A square
    matrix of a size [N] other than 1 and 2 goes to the general paired
    kernel whatever the length [W] of the state; when [N < 2 * (W/2)] the
    last pair reads the entry [F[2h-1][2h-1]] outside the matrix and the
    call is undefined. *)
Theorem small_matrix_undefined F x0 g dt steps name :
  Z.of_nat (length x0) ≤ INT_MAX →
  0 ≤ size0 F → size0 F ≠ 1 → size0 F ≠ 2 → size1 F = size0 F →
  Z.of_nat (length (data F)) = size0 F * size1 F →
  size0 F < Z.of_nat (2 * (length x0 / 2)) →
  solve_cuda F x0 g dt steps name = None.
Proof.
  intros Hfits H0 H1 H2 Hsq Hlen HN.
  assert (2 * (length x0 / 2) ≤ length x0)%nat as Hh by apply Nat.Div0.mul_div_le.
  apply (solve_cuda_None _ _ _ _ _ _ (length x0 / 2 - 1)); [done|lia|].
  intros s.
  destruct (select_solver_cases (size0 F)) as [[? _]|[[? _]|(_ & _ & ->)]];
    [done|done|].
  cbv beta iota delta [solver_body general_skew_symmetric_solver].
  rewrite quot_2_nat, decide_True by lia.
  set (h := (length x0 / 2)%nat) in *.
  assert (load2 F (Z.of_nat (h - 1) + Z.of_nat h) (Z.of_nat (h - 1) + Z.of_nat h)
          = None) as HLR.
  { unfold load2. apply load_ge. rewrite Hlen, Hsq. nia. }
  repeat (match goal with
          | |- context [load ?a ?j ≫= _] => destruct (load a j); [|done]; simpl
          end).
  destruct (load2 F (Z.of_nat (h - 1)) (Z.of_nat (h - 1))); [|done]. simpl.
  destruct (load2 F (Z.of_nat (h - 1)) (Z.of_nat (h - 1) + Z.of_nat h));
    [|done]. simpl.
  destruct (load2 F (Z.of_nat (h - 1) + Z.of_nat h) (Z.of_nat (h - 1)));
    [|done]. simpl.
  by rewrite HLR.
Qed.

Lemma small_matrix_undefined_witness :
  solve_cuda {| size0 := 3; size1 := 3; data := replicate 9 (float_lit 1 0) |}
    (replicate 10 (float_lit 1 0)) (replicate 10 (float_lit 1 0))
    (float_lit 1 (-1)) 1 "Euler" = None.
Proof.
  apply small_matrix_undefined; [by vm_compute|done|done|done|done|done|].
  by vm_compute.
Defined.

(** ** The kernels compared *)

(** X7. [general_solver], the kernel that no call dispatches to, is the
    compact diagonal kernel with a coefficient of its own for every
    element: launched on a matrix whose diagonal entries below [x0_size]
    all hold the entry [F1[0][0]] of a matrix [F1], it returns what the
    compact diagonal kernel returns on [F1], for every grid. *)
Theorem general_solver_constant_diagonal method F F1 g dt steps x0_size
    blocks threads x0 :
  (∀ tid, 0 ≤ tid < x0_size → load2 F tid tid = load2 F1 0 0) →
  launch blocks threads (general_solver method F g dt steps x0_size) x0
  = launch blocks threads (compact_diagonal_solver method F1 g dt steps x0_size) x0.
Proof.
  intros Hdiag. unfold launch. apply run_threads_ext. intros tid s.
  unfold general_solver, compact_diagonal_solver. case_decide as Ht; [|done].
  destruct (decide (0 ≤ tid)) as [H0|H0].
  - by rewrite Hdiag by lia.
  - by rewrite (load_neg s tid) by lia.
Qed.

Lemma general_solver_constant_diagonal_witness :
  launch 1 512
    (general_solver p_euler_method
       {| size0 := 2; size1 := 2;
          data := [float_lit 3 0; float_lit 1 0; float_lit 7 0; float_lit 3 0] |}
       [float_lit 1 0; float_lit 5 0] (float_lit 1 (-1)) 2 2)
    [float_lit 1 0; float_lit 1 0]
  = launch 1 512
      (compact_diagonal_solver p_euler_method
         {| size0 := 1; size1 := 1; data := [float_lit 3 0] |}
         [float_lit 1 0; float_lit 5 0] (float_lit 1 (-1)) 2 2)
      [float_lit 1 0; float_lit 1 0].
Proof.
  apply general_solver_constant_diagonal. intros tid Ht.
  assert (tid = 0 ∨ tid = 1) as [-> | ->] by lia; done.
Defined.

Lemma skew_thread_ext cf cf' method g dt steps x0_size tid s :
  (0 ≤ tid < x0_size `quot` 2 → cf tid = cf' tid) →
  skew_thread cf method g dt steps x0_size tid s
  = skew_thread cf' method g dt steps x0_size tid s.
Proof.
  intros Hcf. unfold skew_thread. case_decide as Ht; [|done].
  destruct (decide (0 ≤ tid)) as [H0|H0].
  - by rewrite Hcf by lia.
  - by rewrite (load_neg g tid) by lia.
Qed.

(** X8. The compact skew-symmetric kernel is the general one on a matrix
    of four constant blocks: when every pair of a [W]x[W] matrix [F] reads
    the four entries of a 2x2 matrix [F2], the call on [F] returns what
    the call on [F2] returns. *)
Theorem general_skew_block_constant F F2 x0 g dt steps name :
  Z.of_nat (length x0) ≤ INT_MAX →
  size0 F2 = 2 → size0 F ≠ 1 →
  (∀ i, (i < length x0 / 2)%nat →
        solve_coeffs F (Z.of_nat (length x0)) (Z.of_nat i) = compact_coeffs F2) →
  solve_cuda F x0 g dt steps name = solve_cuda F2 x0 g dt steps name.
Proof.
  intros Hfits H2 H1 Hblocks.
  rewrite !solve_cuda_skew by (done || lia).
  unfold launch. apply run_threads_ext. intros tid s.
  apply skew_thread_ext. rewrite int_id by (unfold INT_MAX in Hfits; lia).
  rewrite quot_2_nat. intros Ht.
  rewrite <- (Z2Nat.id tid) by lia. rewrite Hblocks by lia.
  unfold solve_coeffs. by rewrite H2.
Qed.

Lemma general_skew_block_constant_witness :
  solve_cuda
    {| size0 := 4; size1 := 4;
       data := [float_lit 1 0; float_lit 0 0; float_lit 2 0; float_lit 0 0;
                float_lit 0 0; float_lit 1 0; float_lit 0 0; float_lit 2 0;
                float_lit 3 0; float_lit 0 0; float_lit 4 0; float_lit 0 0;
                float_lit 0 0; float_lit 3 0; float_lit 0 0; float_lit 4 0] |}
    [float_lit 1 0; float_lit 5 0; float_lit 7 0; float_lit 9 0]
    [float_lit 1 0; float_lit 3 0; float_lit 1 0; float_lit 3 0]
    (float_lit 1 (-1)) 2 "RK4"
  = solve_cuda
      {| size0 := 2; size1 := 2;
         data := [float_lit 1 0; float_lit 2 0; float_lit 3 0; float_lit 4 0] |}
      [float_lit 1 0; float_lit 5 0; float_lit 7 0; float_lit 9 0]
      [float_lit 1 0; float_lit 3 0; float_lit 1 0; float_lit 3 0]
      (float_lit 1 (-1)) 2 "RK4".
Proof.
  apply general_skew_block_constant; [by vm_compute|done|done|].
  intros [|[|i]] Hi; [done|done|]. simpl in Hi. lia.
Defined.

(** ** The assertions of the entry point *)

Lemma CHECK_INPUT_Some {A} (x : Tensor A) name :
  ¬ checked x → is_Some (CHECK_INPUT x name).
Proof.
  unfold checked, CHECK_INPUT. intros Hn.
  destruct (is_cuda x), (is_contiguous x); simpl; eauto.
  destruct Hn. done.
Qed.

(** X9. The entry point fails its assertion exactly when one of the three
    tensors is off the device or not contiguous; the message names the
    first such tensor in the order [F], [x0], [g], and nothing is launched.
    Every other call reaches [solve_cuda]. *)
Theorem solve_cpp_asserts F x0 g dt steps name :
  (checked F ∧ checked x0 ∧ checked g
   ∧ solve_cpp F x0 g dt steps name
     = Returned (solve_cuda (contents F) (contents x0) (contents g) dt steps name))
  ∨ (∃ msg, solve_cpp F x0 g dt steps name = AssertFailed msg
            ∧ ((¬ checked F ∧ CHECK_INPUT F "F" = Some msg)
               ∨ (checked F ∧ ¬ checked x0 ∧ CHECK_INPUT x0 "x0" = Some msg)
               ∨ (checked F ∧ checked x0 ∧ ¬ checked g
                  ∧ CHECK_INPUT g "g" = Some msg))).
Proof.
  assert (∀ A (x : Tensor A), Decision (checked x)) as Hdec
    by (intros A x; unfold checked; apply _).
  destruct (Hdec _ F) as [HF|HF].
  - destruct (Hdec _ x0) as [Hx0|Hx0].
    + destruct (Hdec _ g) as [Hg|Hg].
      * left. repeat (split; [done|]). by apply solve_cpp_checked.
      * right. destruct (CHECK_INPUT_Some g "g" Hg) as [msg Hmsg].
        exists msg. unfold solve_cpp.
        rewrite !CHECK_INPUT_checked, Hmsg by done. split; [done|].
        right. right. done.
    + right. destruct (CHECK_INPUT_Some x0 "x0" Hx0) as [msg Hmsg].
      exists msg. unfold solve_cpp.
      rewrite CHECK_INPUT_checked, Hmsg by done. split; [done|].
      right. left. done.
  - right. destruct (CHECK_INPUT_Some F "F" HF) as [msg Hmsg].
    exists msg. unfold solve_cpp. rewrite Hmsg. split; [done|]. by left.
Qed.

(** ** Order of the threads, and the elements that no thread owns *)

(** X10. The threads of a launch do not race: on a state whose length fits
    an [int], running the threads of the grid of [solve_cuda] in any order
    gives the state that the call returns (or is undefined when the call
    is). *)
Theorem solve_cuda_any_thread_order F x0 g dt steps name tids :
  Z.of_nat (length x0) ≤ INT_MAX →
  tids ≡ₚ grid (l_blocks (solve_cuda_launch F x0 name))
            (l_threads (solve_cuda_launch F x0 name)) →
  run_threads
    (solver_body (select_solver (size0 F)) (subscript h_methods name) F g dt steps
       (int (Z.of_nat (length x0)))) tids x0
  = solve_cuda F x0 g dt steps name.
Proof. intros Hfits Hperm. by apply solve_cuda_schedule_independent. Qed.

Lemma solve_cuda_any_thread_order_witness :
  run_threads
    (solver_body (select_solver 2) (subscript h_methods "Euler")
       {| size0 := 2; size1 := 2;
          data := [float_lit 1 0; float_lit 2 0; float_lit 3 0; float_lit 4 0] |}
       [float_lit 1 0; float_lit 3 0; float_lit 1 0; float_lit 3 0]
       (float_lit 1 (-1)) 2 (int (Z.of_nat 4)))
    (reverse (grid 1 512))
    [float_lit 1 0; float_lit 5 0; float_lit 7 0; float_lit 9 0]
  = solve_cuda
      {| size0 := 2; size1 := 2;
         data := [float_lit 1 0; float_lit 2 0; float_lit 3 0; float_lit 4 0] |}
      [float_lit 1 0; float_lit 5 0; float_lit 7 0; float_lit 9 0]
      [float_lit 1 0; float_lit 3 0; float_lit 1 0; float_lit 3 0]
      (float_lit 1 (-1)) 2 "Euler".
Proof.
  apply (solve_cuda_any_thread_order
           {| size0 := 2; size1 := 2;
              data := [float_lit 1 0; float_lit 2 0; float_lit 3 0; float_lit 4 0] |}
           [float_lit 1 0; float_lit 5 0; float_lit 7 0; float_lit 9 0]
           [float_lit 1 0; float_lit 3 0; float_lit 1 0; float_lit 3 0]
           (float_lit 1 (-1)) 2 "Euler" (reverse (grid 1 512)));
    [by vm_compute|].
  apply reverse_Permutation.
Defined.

(** X11. Under the paired kernels no thread owns the last element of a
    state of odd length: whenever the call is defined, that element comes
    back as it was given, whatever the matrix, the scale vector, the
    method and the step count. *)
Theorem paired_last_element_untouched F x0 g dt steps name out :
  Z.of_nat (length x0) ≤ INT_MAX → size0 F ≠ 1 →
  Nat.Odd (length x0) →
  solve_cuda F x0 g dt steps name = Some out →
  out !! (length x0 - 1)%nat = x0 !! (length x0 - 1)%nat.
Proof.
  intros Hfits H1 [h Hodd] Hrun.
  eapply not_covered_unchanged; [|done].
  intros (tid & _ & Hcell). revert Hcell.
  unfold solve_cuda_launch. cbv beta iota delta [l_solver l_x0_size].
  rewrite int_id by (unfold INT_MAX in Hfits; lia).
  assert (Z.of_nat (length x0) `quot` 2 = Z.of_nat h) as Hq.
  { rewrite quot_2_nat. f_equal. rewrite Hodd.
    rewrite Nat.mul_comm, Nat.div_add_l by lia. simpl. lia. }
  destruct (select_solver_cases (size0 F)) as [[? _]|[[_ ->]|(_ & _ & ->)]];
    [done| |]; unfold thread_cells; rewrite Hq;
    case_decide; rewrite ?elem_of_cons, elem_of_nil; lia.
Qed.

Lemma paired_last_element_untouched_witness :
  [float_lit 5 (-1); float_lit 6 0; float_lit 3 0] !! (3 - 1)%nat
  = [float_lit 1 0; float_lit 2 0; float_lit 3 0] !! (3 - 1)%nat.
Proof.
  apply (paired_last_element_untouched
           {| size0 := 2; size1 := 2;
              data := [float_lit 1 0; float_lit 2 0; float_lit 3 0; float_lit 4 0] |}
           [float_lit 1 0; float_lit 2 0; float_lit 3 0]
           [float_lit 1 0; float_lit 1 0; float_lit 1 0]
           (float_lit 1 (-1)) 1 "Euler");
    [by vm_compute|done|by exists 1%nat|by vm_compute].
Defined.

(** ** Degenerate calls *)

(** X12. A step count that is zero or negative is not rejected and makes
    no iteration: a valid call returns the state as it was given, even
    when the method name is not a recognized one. *)
Theorem nonpositive_steps_identity F x0 g dt steps name :
  valid_call F x0 g → steps ≤ 0 → solve_cuda F x0 g dt steps name = Some x0.
Proof. intros Hv Hs. by apply solve_cuda_no_steps. Qed.

Lemma nonpositive_steps_identity_witness :
  solve_cuda {| size0 := 1; size1 := 1; data := [float_lit 2 0] |}
    [float_lit 1 0; float_lit 5 0] [float_lit 3 0; float_lit 7 0]
    (float_lit 1 (-1)) (-3) "Heun"
  = Some [float_lit 1 0; float_lit 5 0].
Proof.
  apply nonpositive_steps_identity; [valid_call_by_computation|lia].
Defined.

Lemma run_threads_id kernel tids x0_a :
  (∀ tid s, tid ∈ tids → kernel tid s = Some s) →
  run_threads kernel tids x0_a = Some x0_a.
Proof.
  intros Hid. induction tids as [|t tids IH]; [done|].
  rewrite run_threads_cons, Hid by apply list_elem_of_here. simpl.
  apply IH. intros tid s Hin. apply Hid. rewrite elem_of_cons. auto.
Qed.

(** X13. A state too short to hold a thread's elements is returned as it
    is, without any read of the matrix, of the scale vector or of the
    method: the empty state under every kernel (no block is launched), and
    a state of one element under the paired kernels (no thread passes the
    guard [tid < x0_size / 2]). *)
Theorem short_state_identity F x0 g dt steps name :
  length x0 = 0%nat ∨ (length x0 = 1%nat ∧ size0 F ≠ 1) →
  solve_cuda F x0 g dt steps name = Some x0.
Proof.
  intros [H0|[H1 HF]].
  - apply nil_length_inv in H0 as ->. done.
  - unfold solve_cuda, run_launch, solve_cuda_launch, launch. simpl.
    rewrite H1. apply run_threads_id. intros tid s Hin.
    assert (0 ≤ tid) as Ht.
    { change (int ((Z.of_nat 1 + threadsPerBlock - 1) `quot` threadsPerBlock))
        with 1 in Hin.
      rewrite grid_flat in Hin by done.
      apply list_elem_of_fmap in Hin as (z & -> & Hz).
      apply elem_of_seqZ in Hz. unfold threadsPerBlock in Hz.
      rewrite int_id; lia. }
    change (int (Z.of_nat 1)) with 1.
    destruct (select_solver_cases (size0 F)) as [[? _]|[[_ ->]|(_ & _ & ->)]];
      [done| |]; simpl;
      unfold compact_skew_symmetric_solver, general_skew_symmetric_solver;
      change (1 `quot` 2) with 0; by rewrite decide_False by lia.
Qed.

Lemma short_state_identity_witness :
  solve_cuda {| size0 := 7; size1 := 7; data := [] |} [float_lit 1 0] []
    (float_lit 1 (-1)) 5 "Heun"
  = Some [float_lit 1 0].
Proof. apply short_state_identity. right. done. Defined.

(** ** Widening and narrowing *)

Lemma iter_pos_Pos_iter {A} (f : A → A) p x :
  SpecFloat.iter_pos f p x = Pos.iter f x p.
Proof.
  revert x. induction p as [p IH|p IH|]; intros x; simpl.
  - by rewrite !IH, !Pos.iter_swap.
  - by rewrite !IH.
  - done.
Qed.

Lemma digits2_pos_shift m k :
  digits2_pos (Pos.iter xO m k) = (digits2_pos m + k)%positive.
Proof.
  induction k as [|k IH] using Pos.peano_ind.
  - simpl. by rewrite Pos.add_1_r.
  - rewrite Pos.iter_succ. simpl. by rewrite IH, Pos.add_succ_r.
Qed.

Lemma shr_shift m k :
  SpecFloat.iter_pos shr_1 k (Build_shr_record (Zpos (Pos.iter xO m k)) false false)
  = Build_shr_record (Zpos m) false false.
Proof.
  rewrite iter_pos_Pos_iter.
  induction k as [|k IH] using Pos.peano_ind.
  - done.
  - rewrite Pos.iter_succ_r, Pos.iter_succ. simpl. apply IH.
Qed.

Lemma bounded_binary32 m e :
  bounded 24 128 m e = true →
  Z.max (Zpos (digits2_pos m) + e - 24) (-149) = e ∧ e ≤ 104.
Proof.
  unfold bounded, canonical_mantissa, fexp, emin.
  intros [H1 H2]%andb_true_iff. apply Z.eqb_eq in H1. apply Z.leb_le in H2.
  change (3 - 128 - 24) with (-149) in H1. change (128 - 24) with 104 in H2.
  done.
Qed.

Lemma convert_widen s m e :
  bounded 24 128 m e = true →
  Ieee.convert Ieee.binary64 (S754_finite s m e)
  = S754_finite s (Pos.iter xO m (Z.to_pos (53 - Zpos (digits2_pos m))))
      (Zpos (digits2_pos m) + e - 53).
Proof.
  intros [Hc He]%bounded_binary32.
  set (d := digits2_pos m) in *.
  assert (1 ≤ Zpos d ≤ 24) as Hd by lia.
  set (k := Z.to_pos (53 - Zpos d)).
  assert (Zpos k = 53 - Zpos d) as Hk by (unfold k; lia).
  unfold Ieee.convert, binary_round. simpl Ieee.prec. simpl Ieee.emax.
  fold d.
  assert (fexp 53 1024 (Zpos d + e) = Zpos d + e - 53) as Hf.
  { unfold fexp, emin. lia. }
  rewrite Hf. unfold shl_align.
  replace (Zpos d + e - 53 - e) with (Zneg k) by lia.
  unfold binary_round_aux, shr_fexp.
  assert (Zdigits2 (Zpos (Pos.iter xO m k)) = 53) as Hdig.
  { simpl. rewrite digits2_pos_shift. fold d. lia. }
  rewrite Hdig.
  assert (fexp 53 1024 (53 + (Zpos d + e - 53)) - (Zpos d + e - 53) = 0) as Hs.
  { unfold fexp, emin. lia. }
  rewrite Hs.
  cbv beta iota zeta delta [shr shr_m loc_of_shr_record round_nearest_even
                               shr_record_of_loc].
  rewrite Hdig, Hs.
  cbv beta iota zeta delta [shr shr_m].
  by rewrite (proj2 (Z.leb_le _ _)) by lia.
Qed.

Lemma convert_narrow s m e :
  bounded 24 128 m e = true →
  Ieee.convert Ieee.binary32
    (S754_finite s (Pos.iter xO m (Z.to_pos (53 - Zpos (digits2_pos m))))
       (Zpos (digits2_pos m) + e - 53))
  = S754_finite s m e.
Proof.
  intros [Hc He]%bounded_binary32.
  set (d := digits2_pos m) in *.
  assert (1 ≤ Zpos d ≤ 24) as Hd by lia.
  set (k := Z.to_pos (53 - Zpos d)).
  assert (Zpos k = 53 - Zpos d) as Hk by (unfold k; lia).
  unfold Ieee.convert, binary_round. simpl Ieee.prec. simpl Ieee.emax.
  rewrite digits2_pos_shift. fold d.
  assert (fexp 24 128 (Zpos (d + k) + (Zpos d + e - 53)) = e) as Hf.
  { unfold fexp, emin. lia. }
  rewrite Hf. unfold shl_align.
  replace (e - (Zpos d + e - 53)) with (Zpos k) by lia.
  unfold binary_round_aux, shr_fexp.
  assert (Zdigits2 (Zpos (Pos.iter xO m k)) = 53) as Hdig.
  { simpl. rewrite digits2_pos_shift. fold d. lia. }
  rewrite Hdig.
  assert (fexp 24 128 (53 + (Zpos d + e - 53)) - (Zpos d + e - 53) = Zpos k) as Hs.
  { unfold fexp, emin. lia. }
  rewrite Hs.
  cbv beta iota zeta delta [shr shr_record_of_loc].
  rewrite shr_shift.
  cbv beta iota zeta delta [shr_m loc_of_shr_record round_nearest_even
                               shr_record_of_loc].
  assert (fexp 24 128 (Zdigits2 (Zpos m) + (Zpos d + e - 53 + Zpos k))
          - (Zpos d + e - 53 + Zpos k) = 0) as Hs'.
  { simpl Zdigits2. fold d. unfold fexp, emin. lia. }
  rewrite Hs'.
  cbv beta iota zeta delta [shr shr_m].
  rewrite (proj2 (Z.leb_le _ _)) by lia. f_equal. lia.
Qed.

(** Widening a [float] to [double] and narrowing it back gives the
    [float] again. *)
Lemma to_float_to_double x : valid_float x → to_float (to_double x) = x.
Proof.
  destruct x as [[s|s| |s m e]]; try done.
  unfold valid_float, to_float, to_double.
  cbn [float_val double_val valid_binary]. intros Hv.
  f_equal. rewrite convert_widen by done. by apply convert_narrow.
Qed.

(** ** The first kernel: [euler_solver_cuda] *)

Lemma euler_kernel_length F dt steps W tid s s' :
  euler_kernel F dt steps W tid s = Some s' → length s' = length s.
Proof.
  unfold euler_kernel. case_decide; [done|]. intros Hrun.
  simplify_option_eq; [|done]. by eapply store_length.
Qed.

Lemma run_threads_None_length kernel tids tid x0_a :
  (∀ t s s', kernel t s = Some s' → length s' = length s) →
  tid ∈ tids →
  (∀ s, length s = length x0_a → kernel tid s = None) →
  run_threads kernel tids x0_a = None.
Proof.
  intros Hlen Hin Hnone. revert x0_a Hnone.
  induction tids as [|t tids IH]; intros x0_a Hnone.
  - by apply elem_of_nil in Hin.
  - rewrite run_threads_cons. apply elem_of_cons in Hin as [<-|Hin].
    + by rewrite Hnone.
    + destruct (kernel t x0_a) as [s|] eqn:Hs; [|done]. simpl.
      apply IH; [done|]. intros s' Hs'. apply Hnone.
      rewrite Hs'. by eapply Hlen.
Qed.

(** The grid of [euler_solver_cuda]: the thread indices below the number
    of threads, none changed by its conversion to [int]. *)
Lemma grid_euler (W : Z) :
  W * W + threadsPerBlock - 1 ≤ INT_MAX →
  ∃ n : nat,
    Z.of_nat n = (W * W + threadsPerBlock - 1) `quot` threadsPerBlock * threadsPerBlock
    ∧ W * W ≤ Z.of_nat n
    ∧ grid ((W * W + threadsPerBlock - 1) `quot` threadsPerBlock) threadsPerBlock
      = seqZ 0 (Z.of_nat n).
Proof.
  unfold INT_MAX, threadsPerBlock. intros HW.
  assert (0 ≤ W * W) as H0 by nia.
  rewrite Z.quot_div_nonneg by lia.
  pose proof (Z.div_mod (W * W + 512 - 1) 512 ltac:(lia)) as Hdm.
  pose proof (Z.mod_pos_bound (W * W + 512 - 1) 512 ltac:(lia)) as Hm.
  set (b := (W * W + 512 - 1) `div` 512) in *.
  assert (0 ≤ b ≤ 2 ^ 22) as Hb by lia.
  rewrite grid_flat by lia.
  exists (Z.to_nat (b * 512)). rewrite Z2Nat.id by lia.
  split; [done|]. split; [lia|].
  assert (Forall (λ z, int z = z) (seqZ 0 (b * 512))) as Hall.
  { apply Forall_seqZ. intros z Hz. apply int_id. lia. }
  induction Hall as [|z l Hz _ IH]; [done|]. by rewrite fmap_cons, Hz, IH.
Qed.

(** X14. [euler_kernel] loads [x0[tid]] before it tests [tid < W * W], in
    every thread of the grid: unless the state extends to the number of
    threads launched, which is [W * W] rounded up to a multiple of 512,
    a thread of the last block reads past the end of the state and the
    call is undefined. *)
Theorem euler_solver_cuda_reads_past_state F x0 dt steps W :
  W * W + threadsPerBlock - 1 ≤ INT_MAX →
  Z.of_nat (length x0)
  < (W * W + threadsPerBlock - 1) `quot` threadsPerBlock * threadsPerBlock →
  euler_solver_cuda F x0 dt steps W = None.
Proof.
  intros HW Hshort. unfold euler_solver_cuda. rewrite decide_True by done.
  unfold launch. destruct (grid_euler W HW) as (n & Hn & _ & ->).
  apply (run_threads_None_length _ _ (Z.of_nat (length x0))).
  - intros t s s'. apply euler_kernel_length.
  - apply elem_of_seqZ. lia.
  - intros s Hs. unfold euler_kernel. case_decide; [done|].
    by rewrite load_ge by lia.
Qed.

Lemma euler_solver_cuda_reads_past_state_witness :
  euler_solver_cuda
    {| size0 := 2; size1 := 2;
       data := [float_lit 1 0; float_lit 2 0; float_lit 3 0; float_lit 4 0] |}
    [float_lit 1 0; float_lit 1 0; float_lit 1 0; float_lit 1 0]
    (double_lit 1 (-1)) 1 2
  = None.
Proof. apply euler_solver_cuda_reads_past_state; by vm_compute. Defined.

(** The elements of the state after a launch of [euler_kernel] that stays
    inside the state and inside the storage of the matrix. *)
Lemma euler_solver_cuda_cells F x0 dt steps W :
  W ≠ 0 → W * W + threadsPerBlock - 1 ≤ INT_MAX → size1 F = W →
  (W * W + threadsPerBlock - 1) `quot` threadsPerBlock * threadsPerBlock
  ≤ Z.of_nat (length x0) →
  (W * W + threadsPerBlock - 1) `quot` threadsPerBlock * threadsPerBlock
  ≤ Z.of_nat (length (data F)) →
  ∃ out,
    euler_solver_cuda F x0 dt steps W = Some out
    ∧ length out = length x0
    ∧ (∀ (i : nat) x c,
         Z.of_nat i < W * W → x0 !! i = Some x → data F !! i = Some c →
         out !! i
         = Some (to_float (euler_kernel_loop (to_double c) (to_float dt)
                             (Z.to_nat steps) (to_double x))))
    ∧ (∀ i : nat, W * W ≤ Z.of_nat i → out !! i = x0 !! i).
Proof.
  intros HW0 HW Hrow Hx0 HF. unfold euler_solver_cuda.
  rewrite decide_True by done. unfold launch.
  destruct (grid_euler W HW) as (n & Hn & HWn & ->).
  rewrite <- Hn in Hx0, HF.
  set (cell := λ i : nat,
         x ← x0 !! i; c ← data F !! i;
         Some (to_float (euler_kernel_loop (to_double c) (to_float dt)
                           (Z.to_nat steps) (to_double x)))).
  destruct (run_threads_ind (euler_kernel F (to_float dt) steps W)
    (λ k s, length s = length x0 ∧
       ∀ i, s !! i = if decide ((i < k)%nat ∧ Z.of_nat i < W * W)
                     then cell i else x0 !! i)
    x0 n) as (out & Hrun & Hlen & Hout).
  - split; [done|]. intros i. by rewrite decide_False by lia.
  - intros k s Hk [Hlen Hs]. unfold euler_kernel. rewrite decide_False by done.
    destruct (lookup_lt_is_Some_2 x0 k ltac:(lia)) as [x Hx].
    destruct (lookup_lt_is_Some_2 (data F) k ltac:(lia)) as [c Hc].
    assert (s !! k = Some x) as Hsk by (rewrite Hs, decide_False by lia; done).
    assert (load2 F (Z.of_nat k `quot` W) (Z.of_nat k `rem` W) = Some c) as HFk.
    { unfold load2. rewrite Hrow.
      replace (Z.of_nat k `quot` W * W + Z.of_nat k `rem` W) with (Z.of_nat k)
        by (pose proof (Z.quot_rem' (Z.of_nat k) W); lia).
      by rewrite load_nat. }
    cbv zeta. rewrite load_nat, Hsk, HFk. simpl.
    destruct (decide (Z.of_nat k < W * W)) as [Hin|Hout'].
    + rewrite store_nat by lia. eexists. split; [done|].
      split; [by rewrite length_insert|]. intros i.
      destruct (decide (i = k)) as [->|Hne].
      * rewrite list_lookup_insert_eq by lia. rewrite decide_True by lia.
        unfold cell. by rewrite Hx, Hc.
      * rewrite list_lookup_insert_ne by done. rewrite Hs.
        repeat case_decide; (done || lia).
    + exists s. split; [done|]. split; [done|]. intros i. rewrite Hs.
      repeat case_decide; (done || lia).
  - exists out. split; [done|]. split; [done|]. split.
    + intros i x c Hi Hx Hc. rewrite Hout, decide_True by lia.
      unfold cell. by rewrite Hx, Hc.
    + intros i Hi. by rewrite Hout, decide_False by lia.
Qed.




(** X16. With no iteration to make, a defined call of [euler_solver_cuda]
    returns a state of binary32 values as it was given: each element is
    widened to [double] when it is loaded and narrowed back when it is
    stored, which gives the element again. *)
Theorem euler_solver_cuda_no_steps F x0 dt steps W :
  W ≠ 0 → W * W + threadsPerBlock - 1 ≤ INT_MAX → size1 F = W →
  (W * W + threadsPerBlock - 1) `quot` threadsPerBlock * threadsPerBlock
  ≤ Z.of_nat (length x0) →
  (W * W + threadsPerBlock - 1) `quot` threadsPerBlock * threadsPerBlock
  ≤ Z.of_nat (length (data F)) →
  Forall valid_float x0 → steps ≤ 0 →
  euler_solver_cuda F x0 dt steps W = Some x0.
Proof.
  intros HW0 HW Hrow Hx0 HF Hvalid Hs.
  destruct (euler_solver_cuda_cells F x0 dt steps W HW0 HW Hrow Hx0 HF)
    as (out & -> & Hlen & Hin & Hout).
  f_equal. apply list_eq. intros i.
  destruct (decide (Z.of_nat i < W * W)) as [Hi|Hi]; [|apply Hout; lia].
  assert (0 ≤ W * W) as H0 by nia.
  assert (W * W ≤ Z.of_nat (length x0)) as Hle.
  { etrans; [|exact Hx0]. unfold threadsPerBlock in *.
    rewrite Z.quot_div_nonneg by lia.
    pose proof (Z.div_mod (W * W + 512 - 1) 512 ltac:(lia)).
    pose proof (Z.mod_pos_bound (W * W + 512 - 1) 512 ltac:(lia)). lia. }
  assert (W * W ≤ Z.of_nat (length (data F))) as HleF.
  { etrans; [|exact HF]. unfold threadsPerBlock in *.
    rewrite Z.quot_div_nonneg by lia.
    pose proof (Z.div_mod (W * W + 512 - 1) 512 ltac:(lia)).
    pose proof (Z.mod_pos_bound (W * W + 512 - 1) 512 ltac:(lia)). lia. }
  destruct (lookup_lt_is_Some_2 x0 i ltac:(lia)) as [x Hx].
  destruct (lookup_lt_is_Some_2 (data F) i ltac:(lia)) as [c Hc].
  rewrite (Hin i x c Hi Hx Hc), Hx.
  replace (Z.to_nat steps) with 0%nat by lia. simpl. f_equal.
  apply to_float_to_double. rewrite Forall_forall in Hvalid.
  by eapply Hvalid, list_elem_of_lookup_2.
Qed.

Lemma euler_solver_cuda_no_steps_witness :
  euler_solver_cuda
    {| size0 := 32; size1 := 32; data := replicate 1024 (float_lit 2 0) |}
    (replicate 1024 (float_lit 3 (-1))) (double_lit 1 (-1)) 0 32
  = Some (replicate 1024 (float_lit 3 (-1))).
Proof.
  apply euler_solver_cuda_no_steps;
    [done | by vm_compute | done | | | | done].
  - rewrite length_replicate. by vm_compute.
  - cbv [data]. rewrite length_replicate. by vm_compute.
  - apply Forall_replicate. by vm_compute.
Defined.

(** ** The table of methods *)

(** X17. The lookup of a method by name is exact and case-sensitive: it
    gives the Euler method for ["Euler"] alone, the fourth-order method
    for ["RK4"] alone, and the null pointer for every other name. *)
Theorem method_lookup name :
  (subscript h_methods name = p_euler_method ↔ name = "Euler")
  ∧ (subscript h_methods name = p_rk4_method ↔ name = "RK4")
  ∧ (subscript h_methods name = nullptr ↔ name ≠ "Euler" ∧ name ≠ "RK4").
Proof.
  destruct (decide (name = "Euler")) as [->|HE];
    [repeat split; (done || intros [? ?]; done)|].
  destruct (decide (name = "RK4")) as [->|HR];
    [repeat split; (done || intros [? ?]; done)|].
  rewrite subscript_unrecognized by done.
  repeat split; done.
Qed.

(** ** A state too long for an [int]

    The kernels take the length of the state as an [int] (lines 36, 52,
    68 and 95), and [solve_cuda] passes them [torch::size(x0, 0)], which
    is a 64-bit integer. *)

(** C9 fails on the code as soon as the length of the state does not fit
    an [int].  With a 1x1 matrix and state and scale vectors of
    [2^31 + 1] elements, the kernels get [x0_size = - 2^31 + 1], and the
    grid has [2^22 + 1] blocks; its thread number [2^31] has
    [tid = - 2^31], which is below [x0_size]: it passes the guard and
    loads [x0[- 2^31]], outside the state.  The launch is undefined,
    with no iteration to make. *)
Lemma steps_zero_overflowing_length :
  let F := {| size0 := 1; size1 := 1; data := [float_lit 2 0] |} in
  let x0 := replicate (Z.to_nat (2 ^ 31 + 1)) (float_lit 1 0) in
  let g := replicate (Z.to_nat (2 ^ 31 + 1)) (float_lit 1 0) in
  recognized_shape F (length x0)
  ∧ length g = length x0
  ∧ Z.of_nat (length x0) = INT_MAX + 2
  ∧ solve_cuda F x0 g (float_lit 1 (-1)) 0 "Euler" = None.
Proof.
  intros F x0 g. subst x0 g.
  assert (Z.of_nat (Z.to_nat (2 ^ 31 + 1)) = 2147483649) as Hn
    by (rewrite Z2Nat.id; lia).
  revert Hn. generalize (Z.to_nat (2 ^ 31 + 1)). intros n Hn.
  split; [|split; [|split]].
  - split; [done|]. split; [done|]. by left.
  - by rewrite !length_replicate.
  - rewrite length_replicate, Hn. done.
  - unfold solve_cuda, run_launch, solve_cuda_launch, launch.
    cbn [l_solver l_blocks l_threads l_method l_x0_size size0 F select_solver
         solver_body].
    rewrite length_replicate, Hn.
    change (int 2147483649) with (-2147483647).
    change (int ((2147483649 + threadsPerBlock - 1) `quot` threadsPerBlock))
      with 4194305.
    apply (run_threads_None _ _ (-2147483648)).
    + rewrite grid_flat by (unfold threadsPerBlock; lia).
      apply list_elem_of_fmap. exists 2147483648. split; [done|].
      apply elem_of_seqZ. unfold threadsPerBlock. lia.
    + intros s. unfold compact_diagonal_solver.
      rewrite decide_True by lia. by rewrite load_neg by lia.
Qed.
